(** * StatStorage: the weekly-sharded flat-file time-series store

    A shallow embedding of [statstorage.cc].  The storage root directory is
    modelled by its listing: an association list from entry names to entries,
    in the order [readdir] reports them.  Records are kept as the bytes the
    program writes, so that appending to and reading back a shard goes through
    the encoder and the decoder. *)

From Stdlib Require Import ZArith List String Ascii Bool Lia.
From Stdlib Require Import Permutation Sorted DecimalString DecimalPos DecimalN.
From coqutil Require Import Byte Word.LittleEndianList.
Import ListNotations.

Local Open Scope string_scope.
Local Open Scope list_scope.
Local Open Scope Z_scope.

(** ** Machine integers *)

(** [uint32_t] values are integers in [0, 2^32); arithmetic on them wraps. *)
Definition uint32 (z : Z) : Prop := 0 <= z < 2 ^ 32.

Definition wrap32 (z : Z) : Z := z mod 2 ^ 32.

(** [std::to_string] on an [unsigned int]: decimal, no leading zeros. *)
Definition to_string (n : Z) : string :=
  NilZero.string_of_uint (N.to_uint (Z.to_N n)).

(** ** Records *)

(** Modelled from the spec: [statstorage.hh] is not part of the sources.  A
    [Datum] is a sample of a [uint32] timestamp and a single-precision value.
    The program only copies the value, so it is kept as its 32-bit pattern. *)
Record Datum : Set := mkDatum { timestamp : Z; value : Z }.

(** Modelled from the spec: the on-disk record [Val] of [statstorage.hh],
    [{timestamp: uint32, value: float32}], eight bytes, compared by timestamp
    alone. *)
Record Val : Set := mkVal { val_timestamp : Z; val_value : Z }.

(** Modelled from the spec: [sizeof(Val)], a [uint32] and a [float32] with no
    padding between or after them. *)
Definition sizeof_Val : Z := 8.

(** Modelled from the spec: [Val::operator<(const Val&)] of [statstorage.hh],
    the order by timestamp that [is_sorted] and [sort] go by. *)
Definition val_lt (a b : Val) : bool := val_timestamp a <? val_timestamp b.

(** Modelled from the spec: the comparison of a [Val] with the [int64_t]
    bound that [lower_bound] goes by, on the timestamp again. *)
Definition val_lt_int (a : Val) (rhs : Z) : bool := val_timestamp a <? rhs.

(** ** The binary record: what [fwrite(&val, 1, sizeof(val), fp)] puts in the
    file and what [fread] brings back, on a little-endian machine. *)
Definition encode_Val (v : Val) : list byte :=
  le_split 4 (val_timestamp v) ++ le_split 4 (val_value v).

Definition decode_Val (bs : list byte) : Val :=
  mkVal (le_combine (firstn 4 bs)) (le_combine (firstn 4 (skipn 4 bs))).

(** [fread(dst, sizeof(Val), n, fp)] on a regular file holding [bs]. *)
Fixpoint fread_Vals (n : nat) (bs : list byte) : list Val :=
  match n with
  | O => []
  | S n' => decode_Val (firstn 8 bs) :: fread_Vals n' (skipn 8 bs)
  end.

(** ** Errors and results *)

Inductive error : Set :=
| UnixDie (what : string)      (* unixDie: a fatal I/O failure *)
| NullStream                   (* fwrite on a null FILE* *)
| LengthError.                 (* std::length_error from vector::reserve *)

Inductive result (A : Type) : Type :=
| Ok (a : A)
| Err (e : error)
| OutOfFuel.

Arguments Ok {A} a.
Arguments Err {A} e.
Arguments OutOfFuel {A}.

Definition bind {A B} (r : result A) (k : A -> result B) : result B :=
  match r with
  | Ok a => k a
  | Err e => Err e
  | OutOfFuel => OutOfFuel
  end.

Notation "x <- r ;; k" := (bind r (fun x => k))
  (at level 61, r at next level, right associativity).

(** ** The storage root directory *)

(** An entry is a regular file with its bytes, or a directory (such as [.]
    and [..]) with the size [fstat] reports for it. *)
Inductive entry :=
| File (content : list byte)
| Dir (st_size : Z).

Definition directory := list (string * entry).

Fixpoint dir_lookup (k : string) (d : directory) : option entry :=
  match d with
  | [] => None
  | (k', e) :: d' => if String.eqb k k' then Some e else dir_lookup k d'
  end.

(** Replace the entry named [k], or add it at the end of the listing. *)
Fixpoint dir_put (k : string) (e : entry) (d : directory) : directory :=
  match d with
  | [] => [(k, e)]
  | (k', e') :: d' =>
      if String.eqb k k' then (k, e) :: d' else (k', e') :: dir_put k e d'
  end.

(** [readdir] until it returns null: the names, in listing order. *)
Definition readdir (d : directory) : list string := map fst d.

(** The entries [.] and [..] that a listing reports for the directory
    itself and for its parent. *)
Definition dot_entry (k : string) : bool :=
  String.eqb k "." || String.eqb k "..".

(** A root in which nothing was stored yet: its listing holds no entry but
    the directories [.] and [..] (which [readdir] reports where the file
    system has them). *)
Definition empty_root (d : directory) : bool :=
  forallb (fun ke => dot_entry (fst ke)
                     && match snd ke with
                        | Dir _ => true
                        | File _ => false
                        end)
          d.

(** ** Strings *)

Definition NUL : ascii := Ascii.zero.

(** [s.c_str()] as a C function reads it: up to the first NUL. *)
Fixpoint c_str (s : string) : string :=
  match s with
  | EmptyString => EmptyString
  | String c r => if Ascii.eqb c NUL then EmptyString else String c (c_str r)
  end.

(** [name.find("/") != string::npos] *)
Fixpoint has_slash (s : string) : bool :=
  match s with
  | EmptyString => false
  | String c r => Ascii.eqb c "/" || has_slash r
  end.

Fixpoint has_dot (s : string) : bool :=
  match s with
  | EmptyString => false
  | String c r => Ascii.eqb c "." || has_dot r
  end.

Fixpoint string_drop (n : nat) (s : string) : string :=
  match n, s with
  | O, _ => s
  | S n', String _ r => string_drop n' r
  | S _, EmptyString => EmptyString
  end.

(** The bracket expression [[A-Za-z0-9_.-]] in the C locale. *)
Definition name_char (c : ascii) : bool :=
  let n := N_of_ascii c in
  ((65 <=? n) && (n <=? 90) || (97 <=? n) && (n <=? 122)
   || (48 <=? n) && (n <=? 57))%N
  || Ascii.eqb c "_" || Ascii.eqb c "." || Ascii.eqb c "-".

Fixpoint all_name_chars (s : string) : bool :=
  match s with
  | EmptyString => true
  | String c r => name_char c && all_name_chars r
  end.

(** [regexec(&d_preg, s, 0, NULL, 0) != REG_NOMATCH] for the pattern
    [^[A-Za-z0-9_.-]+$] compiled in the constructor; [s] is a C string. *)
Definition regexec_d_preg (s : string) : bool :=
  match s with
  | EmptyString => false
  | _ => all_name_chars s
  end.

(** The name validation of the specification (section 4.1): no path
    separator, and the whole name is a non-empty word over the class. *)
Definition valid_name (name : string) : bool :=
  negb (has_slash name) && regexec_d_preg name.

(** ** Sorting helpers used by the concrete instances *)

Fixpoint insert_Val (v : Val) (l : list Val) : list Val :=
  match l with
  | [] => [v]
  | x :: r => if val_lt x v then x :: insert_Val v r else v :: l
  end.

(** One function [std::sort] may be: insertion sort on [operator<]. *)
Definition insertion_sort (l : list Val) : list Val :=
  fold_right insert_Val [] l.

Fixpoint insert_string (s : string) (l : list string) : list string :=
  match l with
  | [] => [s]
  | x :: r => if String.ltb x s then x :: insert_string s r else s :: l
  end.

(** [std::sort] on strings: the order is total, so the result is unique. *)
Definition sort_strings (l : list string) : list string :=
  fold_right insert_string [] l.

(** The order of [std::string::operator<], and the one that allows
    equality. *)
Definition string_lt (a b : string) : Prop := String.ltb a b = true.
Definition string_le (a b : string) : Prop := String.ltb b a = false.

(** [std::unique] followed by the [resize]: drop adjacent repetitions. *)
Fixpoint unique (l : list string) : list string :=
  match l with
  | [] => []
  | x :: r =>
      match r with
      | y :: _ => if String.eqb x y then unique r else x :: unique r
      | [] => [x]
      end
  end.

(** [std::is_sorted] on [operator<]: no element is less than its
    predecessor. *)
Fixpoint is_sorted (l : list Val) : bool :=
  match l with
  | [] => true
  | a :: r =>
      match r with
      | b :: _ => negb (val_lt b a) && is_sorted r
      | [] => true
      end
  end.

(** [std::lower_bound(first, last, x)] as libstdc++ computes it: a binary
    search on the half-open window [first, first+len). *)
Fixpoint lower_bound_from (fuel : nat) (l : list Val) (first len : nat)
                          (x : Z) : nat :=
  match fuel with
  | O => first
  | S fuel' =>
      match len with
      | O => first
      | _ =>
          let half := Nat.div2 len in
          let middle := (first + half)%nat in
          if val_lt_int (nth middle l (mkVal 0 0)) x
          then lower_bound_from fuel' l (S middle) (len - half - 1) x
          else lower_bound_from fuel' l first half x
      end
  end.

Definition lower_bound (l : list Val) (x : Z) : nat :=
  lower_bound_from (List.length l) l 0 (List.length l) x.

(** The elements of [l] at positions [b, e). *)
Definition slice {A} (b e : nat) (l : list A) : list A :=
  firstn (e - b) (skipn b l).

(** ** Example data *)

Definition example_root : string := "/var/lib/metronome".
Definition example_root_size : Z := 4096.

(** The bit patterns of the floats 1.0 and 2.0. *)
Definition float_1_0 : Z := 1065353216.
Definition float_2_0 : Z := 1073741824.

(** A root as a listing on Linux shows it, after [temp] was written out of
    order: week 2, then week 0 twice with the later sample first, then
    week 1. *)
Definition example_dir : directory :=
  [ (".", Dir 4096);
    ("..", Dir 4096);
    ("temp.2", File (encode_Val (mkVal 1209605 float_1_0)));
    ("temp.0", File (encode_Val (mkVal 3 float_2_0)
                     ++ encode_Val (mkVal 1 float_1_0)));
    ("temp.1", File (encode_Val (mkVal 604800 float_2_0))) ].

(** An empty root as a listing on Linux shows it. *)
Definition example_empty_root : directory :=
  [ (".", Dir 4096); ("..", Dir 4096) ].


(** What one [store] of a sample of week 0 under [temp] makes of it. *)
Definition example_dir_one : directory :=
  [ (".", Dir 4096);
    ("..", Dir 4096);
    ("temp.0", File (encode_Val (mkVal 0 float_1_0))) ].

(** What a batch [store] under the name [a b] leaves in an empty root. *)
Definition example_dir_a_b : directory :=
  [ ("a b.1", File (encode_Val (mkVal 604800 float_1_0))) ].

(** A batch for [cpu] that begins in week 1 and comes back to week 0. *)
Definition example_batch : list Datum :=
  [ mkDatum 604800 float_1_0; mkDatum 1209600 float_2_0;
    mkDatum 604801 float_2_0; mkDatum 5 float_1_0 ].

(** A history of calls under two names, out of order. *)
Definition example_log : list (string * Datum) :=
  [ ("temp", mkDatum 1209605 float_1_0); ("cpu", mkDatum 604800 float_2_0);
    ("temp", mkDatum 3 float_2_0); ("temp", mkDatum 1 float_1_0);
    ("temp.cold", mkDatum 2 float_1_0); ("temp", mkDatum 604800 float_2_0) ].

(** ** The storage engine *)

Section StatStorage.

(** [d_root] is the member set by the constructor.  It names an existing
    directory, whose listing is the [directory] the operations take and
    return, and whose own [st_size] is [d_root_size]. *)
Variable d_root : string.
Variable d_root_size : Z.

(** [std::sort] on [Val]s leaves the order of equal timestamps open, so the
    engine is written over any function that sorts. *)
Variable std_sort : list Val -> list Val.

(** [getWeekNum] *)
Definition getWeekNum (t : Z) : Z := t / (7 * 86400).

(** [makeFilename] *)
Definition makeFilename (name : string) (timestamp : Z) : string :=
  (d_root ++ "/" ++ name ++ "." ++ to_string (getWeekNum timestamp))%string.

(** What a path built as [d_root + "/" + x] names: the entry of the root
    called by [x] read as a C string, or the root itself when nothing follows
    the separator.  [d_root] itself is a C string. *)
Definition path_entry (path : string) : string :=
  c_str (string_drop (String.length d_root + 1) path).

Definition stat_path (path : string) (d : directory) : option entry :=
  match path_entry path with
  | EmptyString => Some (Dir d_root_size)
  | k => dir_lookup k d
  end.

(** An open stream is known by the entry it was opened on. *)
Abbreviation FILE := string (only parsing).

(** [fopen(path, "a")]: the file is created when absent; opening a
    directory for writing fails. *)
Definition fopen_a (path : string) (d : directory)
  : option (FILE * directory) :=
  match stat_path path d with
  | None => Some (path_entry path, dir_put (path_entry path) (File []) d)
  | Some (File _) => Some (path_entry path, d)
  | Some (Dir _) => None
  end.

(** [fwrite(&val, 1, sizeof(val), fp)] on a stream opened for appending.
    Short writes (a full disk) are not modelled: all eight bytes arrive at
    the end of the file the stream is open on.  Nothing removes that file,
    so the last case does not arise. *)
Definition fwrite (bs : list byte) (fp : option FILE) (d : directory)
  : result directory :=
  match fp with
  | None => Err NullStream
  | Some k =>
      match dir_lookup k d with
      | Some (File c) => Ok (dir_put k (File (c ++ bs)) d)
      | _ => Ok d
      end
  end.

(** [store(name, timestamp, value)] *)
Definition store (name : string) (timestamp value : Z) (d : directory)
  : result directory :=
  if has_slash name then Ok d
  else if negb (regexec_d_preg (c_str name)) then Ok d
  else
    let fname := makeFilename name timestamp in
    match fopen_a fname d with
    | None => Err (UnixDie ("Opening '" ++ fname ++ "'")%string)
    | Some (fp, d1) => fwrite (encode_Val (mkVal timestamp value)) (Some fp) d1
    end.

(** The body of the loop of [store(name, data)], with the locals [weekno],
    [fname] and [fp] it carries from one record to the next. *)
Fixpoint store_batch_loop (name : string) (data : list Datum) (weekno : Z)
    (fname : string) (fp : option FILE) (d : directory) : result directory :=
  match data with
  | [] => Ok d
  | dt :: rest =>
      if negb (getWeekNum (timestamp dt) =? weekno) then
        let fname1 := makeFilename name (timestamp dt) in
        match fopen_a fname1 d with
        | None => Err (UnixDie ("Opening '" ++ fname1 ++ "'")%string)
        | Some (fp1, d1) =>
            d2 <- fwrite (encode_Val (mkVal (timestamp dt) (value dt)))
                         (Some fp1) d1 ;;
            store_batch_loop name rest (getWeekNum (timestamp dt)) fname1
                             (Some fp1) d2
        end
      else
        d2 <- fwrite (encode_Val (mkVal (timestamp dt) (value dt))) fp d ;;
        store_batch_loop name rest weekno fname fp d2
  end.

(** [store(name, data)] *)
Definition store_batch (name : string) (data : list Datum) (d : directory)
  : result directory :=
  if has_slash name then Ok d
  else store_batch_loop name data 0 "" None d.

(** [filesize] of the stream [fopen(path, "r")] returned. *)
Definition filesize (e : entry) : Z :=
  match e with
  | File c => Z.of_nat (List.length c)
  | Dir sz => sz
  end.

(** [fread] of [numEntries] records into the tail of [values]: the
    records that arrive.  A directory opens for reading, as on Linux, and
    reading it fails at once. *)
Definition fread (e : entry) (numEntries : Z) : list Val :=
  match e with
  | File c => fread_Vals (Z.to_nat numEntries) c
  | Dir _ => []
  end.

(** [retrieveAllFromFile] *)
Definition retrieveAllFromFile (fname : string) (d : directory)
    (values : list Val) : result (list Val) :=
  match stat_path fname d with
  | None => Ok values
  | Some e =>
      let size := filesize e in
      let numEntries := size / sizeof_Val in
      let got := fread e numEntries in
      if Z.of_nat (List.length got) =? numEntries
      then Ok (values ++ got)
      else Err (UnixDie ("Reading from '" ++ fname ++ "'")%string)
  end.

(** The prefix of [d_name] that ends before its last [.], looked for from
    the end down to, and not including, the first character. *)
Fixpoint cut_last_dot (s : string) : option string :=
  match s with
  | EmptyString => None
  | String c r =>
      match cut_last_dot r with
      | Some p => Some (String c p)
      | None => if Ascii.eqb c "." then Some EmptyString else None
      end
  end.

(** What [d_name] holds after the backwards scan of [getMetrics] has put a
    NUL at [p]. *)
Definition strip_week (d_name : string) : string :=
  match d_name with
  | EmptyString => EmptyString
  | String c r =>
      match cut_last_dot r with
      | Some p => String c p
      | None => EmptyString
      end
  end.

(** [getMetrics].  An entry has a name of at least one character, so the
    first case of the match does not arise. *)
Definition getMetrics (d : directory) : list string :=
  let ret :=
    flat_map (fun d_name =>
      match d_name with
      | EmptyString => []
      | String c _ =>
          if negb (Ascii.eqb c ".") then
            match strip_week d_name with
            | EmptyString => []
            | m => [m]
            end
          else []
      end) (readdir d) in
  unique (sort_strings ret).

(** The test that picks the shard files of [name] from the listing. *)
Definition selects (name d_name : string) : bool :=
  String.prefix (name ++ ".")%string d_name || String.eqb d_name name.

(** [retrieveVals(name)] *)
Definition retrieveVals (name : string) (d : directory) : result (list Val) :=
  let files := filter (selects name) (readdir d) in
  fold_left (fun ret f =>
               values <- ret ;;
               retrieveAllFromFile (d_root ++ "/" ++ f)%string d values)
            files (Ok []).

(** A loop [for (uint32_t t = t0; t < bound; t += 7*86400) body], run for at
    most [fuel] tests of its condition. *)
Fixpoint for_weeks {S : Type} (fuel : nat) (body : Z -> S -> result S)
    (t bound : Z) (s : S) : result S :=
  match fuel with
  | O => OutOfFuel
  | Datatypes.S fuel' =>
      if t <? bound then
        s' <- body t s ;;
        for_weeks fuel' body (wrap32 (t + 7 * 86400)) bound s'
      else Ok s
  end.

(** [retrieveVals(name, begin, end)] *)
Definition retrieveVals_range (fuel : nat) (name : string) (begin end_ : Z)
    (d : directory) : result (list Val) :=
  if has_slash name then Ok []
  else
    values <- for_weeks fuel
                (fun t values => retrieveAllFromFile (makeFilename name t) d values)
                begin (wrap32 (end_ + 7 * 86400)) [] ;;
    if negb (is_sorted values) then Ok (std_sort values) else Ok values.

(** The timestamps at which that loop computes a shard name. *)
Definition visited (fuel : nat) (begin end_ : Z) : result (list Z) :=
  for_weeks fuel (fun t seen => Ok (seen ++ [t]))
            begin (wrap32 (end_ + 7 * 86400)) [].

Definition to_Datum (v : Val) : Datum :=
  mkDatum (val_timestamp v) (val_value v).

(** [retrieve(name)] *)
Definition retrieve (name : string) (d : directory) : result (list Datum) :=
  vals <- retrieveVals name d ;;
  Ok (map to_Datum vals).

(** [retrieve(name, begin, end, number)]: [begin] and [end] are [time_t],
    narrowed to [uint32_t] at the call of [retrieveVals] and compared as they
    are by [lower_bound].  When [endIter] lies before [beginIter] the
    difference handed to [reserve] is negative, a size beyond [max_size()]. *)
Definition retrieve_range (fuel : nat) (name : string) (begin end_ : Z)
    (number : Z) (d : directory) : result (list Datum) :=
  values <- retrieveVals_range fuel name (wrap32 begin) (wrap32 end_) d ;;
  match values with
  | [] => Ok []
  | _ =>
      let beginIter := lower_bound values begin in
      let endIter := lower_bound values end_ in
      if (endIter <? beginIter)%nat then Err LengthError
      else Ok (map to_Datum (slice beginIter endIter values))
  end.

(** ** Conditions on the directory *)

(** The records [retrieveAllFromFile] gets from what [path] names. *)
Definition path_records (path : string) (d : directory) : list Val :=
  match stat_path path d with
  | Some e => fread e (filesize e / sizeof_Val)
  | None => []
  end.

(** [path] is absent or names a regular file: both [fopen]s go through. *)
Definition regular (path : string) (d : directory) : bool :=
  match stat_path path d with
  | Some (Dir _) => false
  | _ => true
  end.

(** Every entry that [retrieveVals(name)] picks from the listing is a
    regular file. *)
Definition shards_regular (name : string) (d : directory) : bool :=
  forallb (fun f => negb (selects name f)
                    || regular (d_root ++ "/" ++ f)%string d)
          (readdir d).

(** The file at [path], when it exists, holds whole records only. *)
Definition whole_records (path : string) (d : directory) : bool :=
  match stat_path path d with
  | Some (File c) => Z.of_nat (List.length c) mod sizeof_Val =? 0
  | _ => true
  end.

(** ** The contents of a metric *)

Definition le_ts (a b : Val) : Prop := val_timestamp a <= val_timestamp b.

Definition Datum_le (a b : Datum) : Prop := timestamp a <= timestamp b.

(** [n] consecutive week numbers from [w] on. *)
Fixpoint weeks_from (n : nat) (w : Z) : list Z :=
  match n with
  | O => []
  | S n' => w :: weeks_from n' (w + 1)
  end.

(** The week numbers of [uint32] timestamps: 0 to 7101. *)
Definition all_weeks : list Z := weeks_from (Z.to_nat 7102) 0.

(** The records in the shard of [name] for week [w]. *)
Definition shard_records (name : string) (w : Z) (d : directory) : list Val :=
  path_records (makeFilename name (w * (7 * 86400))) d.

(** Everything stored under [name], week after week. *)
Definition stored (name : string) (d : directory) : list Datum :=
  map to_Datum (flat_map (fun w => shard_records name w d) all_weeks).

Definition in_interval (begin end_ : Z) (x : Datum) : bool :=
  (begin <=? timestamp x) && (timestamp x <? end_).

Definition val_in_interval (begin end_ : Z) (v : Val) : bool :=
  (begin <=? val_timestamp v) && (val_timestamp v <? end_).

(** Every shard of [name] is absent or a regular file. *)
Definition shards_openable (name : string) (d : directory) : bool :=
  forallb (fun w => regular (makeFilename name (w * (7 * 86400))) d) all_weeks.

(** Every record sits in the shard of its own week, as [store] puts it. *)
Definition shards_in_week (name : string) (d : directory) : bool :=
  forallb (fun w =>
             forallb (fun x => getWeekNum (val_timestamp x) =? w)
                     (shard_records name w d))
          all_weeks.

(** The timestamps of [n] turns of the loop of [retrieveVals] from [t] on,
    when nothing wraps. *)
Fixpoint steps (n : nat) (t : Z) : list Z :=
  match n with
  | O => []
  | S n' => t :: steps n' (t + 7 * 86400)
  end.

(** The bytes of the regular file [k], none when there is no such file. *)
Definition file_content (k : string) (d : directory) : list byte :=
  match dir_lookup k d with
  | Some (File c) => c
  | _ => []
  end.

(** The entry of the shard of [name] for the week of [t]. *)
Definition shard_entry (name : string) (t : Z) : string :=
  (name ++ "." ++ to_string (getWeekNum t))%string.

(** The bytes a batch holds for the entry [k], in the order of the batch. *)
Definition batch_bytes (name k : string) (data : list Datum) : list byte :=
  flat_map (fun dt =>
              if String.eqb (shard_entry name (timestamp dt)) k
              then encode_Val (mkVal (timestamp dt) (value dt))
              else [])
           data.

(** The directories that valid single [store]s make of an empty root. *)
Inductive written : directory -> Prop :=
| written_empty (d : directory) : empty_root d = true -> written d
| written_store (name : string) (t v : Z) (d d' : directory) :
    written d ->
    valid_name name = true -> uint32 t -> uint32 v ->
    store name t v d = Ok d' ->
    written d'.

(** What such a directory looks like: every entry is one of the
    directories [.] and [..], or a regular file under a proper name that
    holds whole records and, when it is a shard of some week, records of
    that week only. *)
Definition healthy (d : directory) : Prop :=
  forall k e, dir_lookup k d = Some e ->
    k <> EmptyString /\ c_str k = k
    /\ ((dot_entry k = true /\ exists sz, e = Dir sz)
        \/ exists c,
             e = File c
             /\ Z.of_nat (List.length c) mod sizeof_Val = 0
             /\ forall name w,
                  0 <= w -> k = (name ++ "." ++ to_string w)%string ->
                  Forall (fun x => getWeekNum (val_timestamp x) = w)
                         (fread (File c) (filesize (File c) / sizeof_Val))).

(** How many times the loop of [retrieveVals] runs from [begin] to
    [end_ + 604800] when nothing wraps. *)
Definition turns (begin end_ : Z) : nat :=
  Z.to_nat ((end_ - begin + 7 * 86400 - 1) / (7 * 86400) + 1).

(** [store(name, timestamp, value)] called on the records of [data] one
    after the other, each on the directory the one before left. *)
Fixpoint store_each (name : string) (data : list Datum) (d : directory)
  : result directory :=
  match data with
  | [] => Ok d
  | dt :: rest =>
      d1 <- store name (timestamp dt) (value dt) d ;;
      store_each name rest d1
  end.

(** A history of single [store] calls, each under its own name. *)
Fixpoint store_log (log : list (string * Datum)) (d : directory)
  : result directory :=
  match log with
  | [] => Ok d
  | (name, dt) :: rest =>
      d1 <- store name (timestamp dt) (value dt) d ;;
      store_log rest d1
  end.

(** The samples a history holds for [name], in the order of the calls. *)
Definition logged (name : string) (log : list (string * Datum)) : list Datum :=
  map snd (filter (fun e => String.eqb (fst e) name) log).

(** A call of the history that [store] accepts and can encode. *)
Definition storable (e : string * Datum) : Prop :=
  valid_name (fst e) = true
  /\ uint32 (timestamp (snd e)) /\ uint32 (value (snd e)).

(** What [std::sort] guarantees. *)
Hypothesis std_sort_perm : forall l, Permutation (std_sort l) l.
Hypothesis std_sort_sorted : forall l, StronglySorted le_ts (std_sort l).

(** ** Strings and paths *)

Lemma string_drop_app (a b : string) :
  string_drop (String.length a) (a ++ b)%string = b.
Proof. induction a as [|c a IH]; simpl; auto. Qed.

Lemma string_drop_root (x : string) :
  string_drop (String.length d_root + 1) (d_root ++ "/" ++ x)%string = x.
Proof.
  induction d_root as [|c a IH]; simpl; auto.
Qed.

Lemma path_entry_root (x : string) :
  path_entry (d_root ++ "/" ++ x)%string = c_str x.
Proof. unfold path_entry. now rewrite string_drop_root. Qed.

Lemma name_char_not_NUL (c : ascii) : name_char c = true -> Ascii.eqb c NUL = false.
Proof.
  destruct (Ascii.eqb_spec c NUL) as [->|]; [discriminate | reflexivity].
Qed.

Lemma c_str_name_chars (s : string) : all_name_chars s = true -> c_str s = s.
Proof.
  induction s as [|c s IH]; simpl; auto.
  intros H. apply andb_prop in H as [Hc Hs].
  rewrite (name_char_not_NUL _ Hc). now rewrite IH.
Qed.

Lemma c_str_app (a b : string) :
  c_str a = a -> c_str (a ++ b)%string = (a ++ c_str b)%string.
Proof.
  induction a as [|c a IH]; simpl; auto.
  destruct (Ascii.eqb c NUL); [discriminate|].
  intros H. injection H as H. now rewrite IH.
Qed.

Lemma c_str_digits (u : Decimal.uint) :
  c_str (NilEmpty.string_of_uint u) = NilEmpty.string_of_uint u.
Proof. induction u; simpl; congruence. Qed.

Lemma c_str_to_string (n : Z) : c_str (to_string n) = to_string n.
Proof.
  unfold to_string, NilZero.string_of_uint.
  destruct (N.to_uint (Z.to_N n)); try apply c_str_digits; reflexivity.
Qed.

Lemma valid_name_no_slash (name : string) :
  valid_name name = true -> has_slash name = false.
Proof.
  unfold valid_name. intros H. apply andb_prop in H as [H _].
  now destruct (has_slash name).
Qed.

Lemma valid_name_chars (name : string) :
  valid_name name = true -> all_name_chars name = true.
Proof.
  unfold valid_name, regexec_d_preg. intros H. apply andb_prop in H as [_ H].
  destruct name; [discriminate | exact H].
Qed.

Lemma valid_name_c_str (name : string) :
  valid_name name = true -> c_str name = name.
Proof. intros H. now apply c_str_name_chars, valid_name_chars. Qed.

Lemma valid_name_regexec (name : string) :
  valid_name name = true -> regexec_d_preg (c_str name) = true.
Proof.
  intros H. rewrite (valid_name_c_str _ H).
  unfold valid_name in H. now apply andb_prop in H as [_ H].
Qed.

(** The entry a shard of [name] lives in. *)
Lemma path_entry_makeFilename (name : string) (t : Z) :
  c_str name = name ->
  path_entry (makeFilename name t)
  = (name ++ "." ++ to_string (getWeekNum t))%string.
Proof.
  intros Hn. unfold makeFilename. rewrite path_entry_root.
  rewrite c_str_app by exact Hn. simpl. now rewrite c_str_to_string.
Qed.

Lemma append_not_empty (a b : string) : a <> EmptyString -> (a ++ b)%string <> EmptyString.
Proof. destruct a; simpl; congruence. Qed.

Lemma append_dot_not_empty (a b : string) : (a ++ "." ++ b)%string <> EmptyString.
Proof. destruct a; simpl; congruence. Qed.

Lemma prefix_append (a b : string) : String.prefix a (a ++ b)%string = true.
Proof.
  induction a as [|c a IH]; simpl; [now destruct b|].
  destruct (ascii_dec c c); [exact IH | congruence].
Qed.

Lemma append_assoc (a b c : string) :
  ((a ++ b) ++ c)%string = (a ++ (b ++ c))%string.
Proof. induction a; simpl; congruence. Qed.

(** ** The record codec *)

Lemma decode_encode_Val (v : Val) :
  uint32 (val_timestamp v) -> uint32 (val_value v) ->
  decode_Val (encode_Val v) = v.
Proof.
  intros Ht Hv. destruct v as [t x]. unfold decode_Val, encode_Val, uint32 in *.
  cbn [val_timestamp val_value] in *.
  rewrite firstn_app, skipn_app, !length_le_split.
  change (4 - 4)%nat with 0%nat. rewrite firstn_O, skipn_O, app_nil_r.
  rewrite firstn_all2 by (rewrite length_le_split; lia).
  rewrite skipn_all2 by (rewrite length_le_split; lia).
  rewrite app_nil_l, firstn_all2 by (rewrite length_le_split; lia).
  rewrite !le_combine_split.
  change (Z.of_nat 4 * 8) with 32.
  now rewrite !Z.mod_small by lia.
Qed.

Lemma length_encode_Val (v : Val) : List.length (encode_Val v) = 8%nat.
Proof. unfold encode_Val. now rewrite length_app, !length_le_split. Qed.


Lemma fread_Vals_snoc (n : nat) : forall (c : list byte) (v : Val),
  List.length c = (8 * n)%nat ->
  uint32 (val_timestamp v) -> uint32 (val_value v) ->
  fread_Vals (S n) (c ++ encode_Val v) = fread_Vals n c ++ [v].
Proof.
  induction n as [|n IH]; intros c v Hlen Ht Hv.
  - destruct c; [|discriminate]. cbn [fread_Vals app].
    rewrite firstn_all2 by (rewrite length_encode_Val; lia).
    now rewrite decode_encode_Val.
  - change (fread_Vals (S (S n)) (c ++ encode_Val v))
      with (decode_Val (firstn 8 (c ++ encode_Val v))
            :: fread_Vals (S n) (skipn 8 (c ++ encode_Val v))).
    rewrite firstn_app, skipn_app.
    replace (8 - List.length c)%nat with 0%nat by lia.
    rewrite firstn_O, skipn_O, app_nil_r.
    rewrite IH; auto. rewrite length_skipn. lia.
Qed.

(** ** Directory listings *)

Lemma dir_lookup_put_eq (k : string) (e : entry) (d : directory) :
  dir_lookup k (dir_put k e d) = Some e.
Proof.
  induction d as [|[k' e'] d IH]; simpl.
  - now rewrite String.eqb_refl.
  - destruct (String.eqb k k') eqn:E; simpl; rewrite ?String.eqb_refl, ?E; auto.
Qed.

Lemma dir_lookup_put_ne (k k' : string) (e : entry) (d : directory) :
  k' <> k -> dir_lookup k' (dir_put k e d) = dir_lookup k' d.
Proof.
  intros Hne. induction d as [|[k0 e0] d IH]; simpl.
  - apply String.eqb_neq in Hne. now rewrite Hne.
  - destruct (String.eqb k k0) eqn:E; simpl.
    + apply String.eqb_eq in E. subst k0.
      apply String.eqb_neq in Hne. now rewrite Hne.
    + now rewrite IH.
Qed.

Lemma dir_lookup_In (k : string) (d : directory) (e : entry) :
  dir_lookup k d = Some e -> In k (readdir d).
Proof.
  induction d as [|[k' e'] d IH]; simpl; [discriminate|].
  destruct (String.eqb_spec k k'); auto.
Qed.

Lemma In_readdir_put (k k' : string) (e : entry) (d : directory) :
  In k' (readdir (dir_put k e d)) <-> k' = k \/ In k' (readdir d).
Proof.
  induction d as [|[k0 e0] d IH]; simpl.
  - intuition.
  - destruct (String.eqb_spec k k0); simpl.
    + subst. intuition.
    + rewrite IH. intuition.
Qed.


(** ** Reading shards *)

Lemma length_fread_Vals (n : nat) : forall bs, List.length (fread_Vals n bs) = n.
Proof. induction n; intros; simpl; auto. Qed.

Lemma retrieveAllFromFile_regular (fname : string) (d : directory)
    (values : list Val) :
  regular fname d = true ->
  retrieveAllFromFile fname d values = Ok (values ++ path_records fname d).
Proof.
  unfold regular, retrieveAllFromFile, path_records.
  destruct (stat_path fname d) as [[c|sz]|]; try discriminate; intros _.
  - cbn [fread filesize]. rewrite length_fread_Vals.
    rewrite Z2Nat.id by (apply Z.div_pos; unfold sizeof_Val; lia).
    now rewrite Z.eqb_refl.
  - now rewrite app_nil_r.
Qed.

Lemma read_files_regular (d : directory) : forall (files : list string) acc,
  (forall f, In f files -> regular (d_root ++ "/" ++ f)%string d = true) ->
  fold_left (fun ret f =>
               values <- ret ;;
               retrieveAllFromFile (d_root ++ "/" ++ f)%string d values)
            files (Ok acc)
  = Ok (acc ++ flat_map (fun f => path_records (d_root ++ "/" ++ f)%string d)
                        files).
Proof.
  induction files as [|f files IH]; intros acc Hreg; simpl.
  - now rewrite app_nil_r.
  - rewrite retrieveAllFromFile_regular by (apply Hreg; now left).
    rewrite IH by (intros; apply Hreg; now right).
    now rewrite app_assoc.
Qed.

Lemma shards_regular_spec (name : string) (d : directory) :
  shards_regular name d = true <->
  (forall f, In f (readdir d) -> selects name f = true ->
             regular (d_root ++ "/" ++ f)%string d = true).
Proof.
  unfold shards_regular. rewrite forallb_forall. split; intros H f Hin.
  - intros Hs. specialize (H f Hin). now rewrite Hs in H.
  - destruct (selects name f) eqn:Hs; cbn [negb orb]; [|reflexivity].
    now apply H.
Qed.

(** [retrieveVals(name)] over regular shards: the records of the selected
    entries, in listing order. *)
Lemma retrieveVals_regular (name : string) (d : directory) :
  shards_regular name d = true ->
  retrieveVals name d
  = Ok (flat_map (fun f => path_records (d_root ++ "/" ++ f)%string d)
                 (filter (selects name) (readdir d))).
Proof.
  intros H. unfold retrieveVals. rewrite read_files_regular; auto.
  intros f Hin. apply filter_In in Hin as [Hin Hs].
  now apply (proj1 (shards_regular_spec name d) H).
Qed.

Lemma selects_shard (name : string) (w : string) :
  selects name (name ++ "." ++ w)%string = true.
Proof.
  unfold selects. change (name ++ "." ++ w)%string with (name ++ ("." ++ w))%string.
  rewrite <- append_assoc. now rewrite prefix_append.
Qed.

(** ** Writing one record *)

Lemma stat_path_put (path k : string) (e : entry) (d : directory) :
  k <> EmptyString ->
  stat_path path (dir_put k e d)
  = if String.eqb (path_entry path) k then Some e else stat_path path d.
Proof.
  intros Hk. unfold stat_path.
  destruct (path_entry path) as [|a r] eqn:E.
  - destruct (String.eqb_spec EmptyString k); congruence.
  - destruct (String.eqb_spec (String a r) k) as [<-|Hne].
    + apply dir_lookup_put_eq.
    + now apply dir_lookup_put_ne.
Qed.

Lemma regular_put_File (path k : string) (c : list byte) (d : directory) :
  k <> EmptyString ->
  regular path d = true -> regular path (dir_put k (File c) d) = true.
Proof.
  intros Hk. unfold regular. rewrite stat_path_put by exact Hk.
  now destruct (String.eqb (path_entry path) k).
Qed.

Lemma stat_path_makeFilename (name : string) (t : Z) (d : directory) :
  c_str name = name ->
  stat_path (makeFilename name t) d
  = dir_lookup (name ++ "." ++ to_string (getWeekNum t))%string d.
Proof.
  intros Hn. unfold stat_path. rewrite path_entry_makeFilename by exact Hn.
  destruct (name ++ "." ++ to_string (getWeekNum t))%string eqn:E; auto.
  now apply append_dot_not_empty in E.
Qed.

(** What a successful [store] leaves behind: the shard holds its old bytes
    followed by the new record, and nothing else moved. *)
Lemma store_valid (name : string) (t v : Z) (d : directory) :
  valid_name name = true ->
  regular (makeFilename name t) d = true ->
  let k := (name ++ "." ++ to_string (getWeekNum t))%string in
  let old := match dir_lookup k d with Some (File c) => c | _ => [] end in
  exists d',
    store name t v d = Ok d'
    /\ dir_lookup k d' = Some (File (old ++ encode_Val (mkVal t v)))
    /\ (forall k', k' <> k -> dir_lookup k' d' = dir_lookup k' d)
    /\ (forall k', In k' (readdir d') <-> k' = k \/ In k' (readdir d)).
Proof.
  intros Hv Hreg k old. unfold store.
  rewrite (valid_name_no_slash _ Hv), (valid_name_regexec _ Hv). cbn [negb].
  pose proof (valid_name_c_str _ Hv) as Hc.
  unfold regular in Hreg. unfold fopen_a.
  rewrite (path_entry_makeFilename _ t Hc).
  rewrite (stat_path_makeFilename _ t d Hc) in *. fold k in Hreg |- *.
  subst old. destruct (dir_lookup k d) as [[c|sz]|] eqn:E; try discriminate.
  - exists (dir_put k (File (c ++ encode_Val (mkVal t v))) d).
    cbn [fwrite]. rewrite E. repeat split.
    + apply dir_lookup_put_eq.
    + intros k' Hne. now apply dir_lookup_put_ne.
    + intros H. apply In_readdir_put in H. exact H.
    + intros H. apply In_readdir_put. exact H.
  - exists (dir_put k (File ([] ++ encode_Val (mkVal t v)))
                    (dir_put k (File []) d)).
    cbn [fwrite]. rewrite dir_lookup_put_eq. repeat split.
    + apply dir_lookup_put_eq.
    + intros k' Hne. now rewrite !dir_lookup_put_ne.
    + intros H. apply In_readdir_put in H as [H|H]; auto.
      apply In_readdir_put in H. exact H.
    + intros H. apply In_readdir_put. destruct H as [H|H]; auto.
      right. apply In_readdir_put. now right.
Qed.


Lemma c_str_shard (name : string) (w : Z) :
  c_str name = name ->
  c_str (name ++ "." ++ to_string w)%string = (name ++ "." ++ to_string w)%string.
Proof.
  intros Hn. rewrite c_str_app by exact Hn. simpl. now rewrite c_str_to_string.
Qed.

Lemma stat_path_listed (f : string) (d : directory) :
  c_str f = f -> f <> EmptyString ->
  stat_path (d_root ++ "/" ++ f)%string d = dir_lookup f d.
Proof.
  intros Hc Hne. unfold stat_path. rewrite path_entry_root, Hc.
  destruct f; congruence.
Qed.

(** A directory that differs from [d] by one regular file keeps the
    regular paths of [d] regular. *)
Lemma regular_after (path k : string) (c : list byte) (d d' : directory) :
  dir_lookup k d' = Some (File c) ->
  (forall k', k' <> k -> dir_lookup k' d' = dir_lookup k' d) ->
  regular path d = true -> regular path d' = true.
Proof.
  intros Hk Hother. unfold regular, stat_path.
  destruct (path_entry path) as [|a r] eqn:E; auto.
  destruct (String.eqb_spec (String a r) k) as [->|Hne].
  - now rewrite Hk.
  - now rewrite Hother.
Qed.

Lemma shards_regular_target (name : string) (t : Z) (d : directory) :
  valid_name name = true ->
  shards_regular name d = true ->
  regular (makeFilename name t) d = true.
Proof.
  intros Hv Hreg. pose proof (valid_name_c_str _ Hv) as Hc.
  destruct (stat_path (makeFilename name t) d) as [e|] eqn:E.
  - rewrite stat_path_makeFilename in E by exact Hc.
    apply (proj1 (shards_regular_spec name d) Hreg
             (name ++ "." ++ to_string (getWeekNum t))%string).
    + eapply dir_lookup_In; eassumption.
    + apply selects_shard.
  - unfold regular. now rewrite E.
Qed.

(** The effect of a [store] that goes through, as the read paths see it. *)
Lemma store_effect (name : string) (t v : Z) (d : directory) :
  valid_name name = true ->
  uint32 t -> uint32 v ->
  regular (makeFilename name t) d = true ->
  whole_records (makeFilename name t) d = true ->
  exists d',
    store name t v d = Ok d'
    /\ In (name ++ "." ++ to_string (getWeekNum t))%string (readdir d')
    /\ (exists c, stat_path (makeFilename name t) d' = Some (File c))
    /\ In (mkVal t v) (path_records (makeFilename name t) d')
    /\ (forall path, regular path d = true -> regular path d' = true)
    /\ (forall f, In f (readdir d') ->
          f = (name ++ "." ++ to_string (getWeekNum t))%string
          \/ In f (readdir d)).
Proof.
  intros Hv Ht Hval Hreg Hwhole.
  pose proof (valid_name_c_str _ Hv) as Hc.
  destruct (store_valid name t v d Hv Hreg) as (d' & Hst & Hk & Hother & Hdir).
  exists d'. split; [exact Hst|]. split; [apply Hdir; now left|].
  assert (Hstat : stat_path (makeFilename name t) d'
                  = Some (File (match dir_lookup
                                  (name ++ "." ++ to_string (getWeekNum t))%string d
                                with Some (File c) => c | _ => [] end
                                ++ encode_Val (mkVal t v)))).
  { rewrite stat_path_makeFilename by exact Hc. exact Hk. }
  split; [eexists; exact Hstat|]. split.
  - unfold path_records. rewrite Hstat. cbn [fread filesize].
    unfold whole_records in Hwhole.
    rewrite stat_path_makeFilename in Hwhole by exact Hc.
    set (old := match dir_lookup _ d with Some (File c) => c | _ => [] end).
    assert (Hold : Z.of_nat (List.length old) mod sizeof_Val = 0).
    { subst old. destruct (dir_lookup _ d) as [[c|sz]|]; auto.
      now apply Z.eqb_eq. }
    unfold sizeof_Val in *.
    apply Z.mod_divide in Hold; [|lia]. destruct Hold as [q Hq].
    rewrite length_app, length_encode_Val, Nat2Z.inj_add, Hq.
    change (Z.of_nat 8) with (1 * 8). rewrite <- Z.mul_add_distr_r.
    rewrite Z.div_mul by lia.
    assert (0 <= q) by lia.
    replace (Z.to_nat (q + 1)) with (S (Z.to_nat q)) by lia.
    rewrite fread_Vals_snoc by (cbn [val_timestamp val_value]; auto; lia).
    apply in_or_app. right. now left.
  - split.
    + intros path. eapply regular_after; eassumption.
    + intros f Hin. now apply Hdir.
Qed.

Lemma shards_regular_after (A : string) (k : string) (d d' : directory) :
  (forall path, regular path d = true -> regular path d' = true) ->
  (forall f, In f (readdir d') -> f = k \/ In f (readdir d)) ->
  regular (d_root ++ "/" ++ k)%string d = true ->
  shards_regular A d = true -> shards_regular A d' = true.
Proof.
  intros Hkeep Hdir Hk HA. apply shards_regular_spec. intros f Hin Hs.
  apply Hkeep. destruct (Hdir f Hin) as [->|Hin']; auto.
  now apply (proj1 (shards_regular_spec A d) HA).
Qed.

(** [store] followed by [retrieve] under the same name. *)
Lemma store_then_retrieve (name : string) (t v : Z) (d : directory) :
  valid_name name = true ->
  uint32 t -> uint32 v ->
  shards_regular name d = true ->
  whole_records (makeFilename name t) d = true ->
  exists d',
    store name t v d = Ok d'
    /\ (exists c, stat_path (makeFilename name t) d' = Some (File c))
    /\ exists l, retrieve name d' = Ok l /\ In (mkDatum t v) l.
Proof.
  intros Hv Ht Hval Hreg Hwhole.
  pose proof (shards_regular_target name t d Hv Hreg) as Htarget.
  destruct (store_effect name t v d Hv Ht Hval Htarget Hwhole)
    as (d' & Hst & Hin & Hfile & Hrec & Hkeep & Hdir).
  exists d'. split; [exact Hst|]. split; [exact Hfile|].
  assert (Hreg' : shards_regular name d' = true).
  { eapply shards_regular_after; eauto. }
  unfold retrieve. rewrite retrieveVals_regular by exact Hreg'. cbn [bind].
  eexists. split; [reflexivity|].
  change (mkDatum t v) with (to_Datum (mkVal t v)). apply in_map.
  apply in_flat_map. exists (name ++ "." ++ to_string (getWeekNum t))%string.
  split; [|exact Hrec].
  apply filter_In. split; [exact Hin | apply selects_shard].
Qed.


(** ** Writing a batch *)

Lemma file_content_put (k k' : string) (c : list byte) (d : directory) :
  file_content k' (dir_put k (File c) d)
  = if String.eqb k k' then c else file_content k' d.
Proof.
  unfold file_content. destruct (String.eqb_spec k k') as [->|Hne].
  - now rewrite dir_lookup_put_eq.
  - rewrite dir_lookup_put_ne; auto.
Qed.

(** One [fopen] in append mode and one [fwrite] on a regular target. *)
Lemma append_record (name : string) (t v : Z) (d : directory) :
  c_str name = name ->
  regular (makeFilename name t) d = true ->
  exists d1 d2,
    fopen_a (makeFilename name t) d = Some (shard_entry name t, d1)
    /\ fwrite (encode_Val (mkVal t v)) (Some (shard_entry name t)) d1 = Ok d2
    /\ (exists c, dir_lookup (shard_entry name t) d2 = Some (File c))
    /\ (forall k, file_content k d2
                  = file_content k d
                    ++ (if String.eqb (shard_entry name t) k
                        then encode_Val (mkVal t v) else []))
    /\ (forall path, regular path d = true -> regular path d2 = true).
Proof.
  intros Hc Hreg. unfold regular in Hreg. unfold fopen_a.
  rewrite path_entry_makeFilename by exact Hc.
  rewrite stat_path_makeFilename in * by exact Hc.
  fold (shard_entry name t) in *. set (k := shard_entry name t) in *.
  assert (Hk : k <> EmptyString) by apply append_dot_not_empty.
  destruct (dir_lookup k d) as [[c|sz]|] eqn:E; try discriminate.
  - exists d, (dir_put k (File (c ++ encode_Val (mkVal t v))) d).
    cbn [fwrite]. rewrite E. repeat split.
    + eexists. apply dir_lookup_put_eq.
    + intros k'. rewrite file_content_put.
      destruct (String.eqb_spec k k') as [<-|].
      * unfold file_content. now rewrite E.
      * now rewrite app_nil_r.
    + intros path. now apply regular_put_File.
  - exists (dir_put k (File []) d),
           (dir_put k (File ([] ++ encode_Val (mkVal t v)))
                    (dir_put k (File []) d)).
    cbn [fwrite]. rewrite dir_lookup_put_eq. repeat split.
    + eexists. apply dir_lookup_put_eq.
    + intros k'. rewrite !file_content_put.
      destruct (String.eqb_spec k k') as [<-|].
      * unfold file_content. now rewrite E.
      * now rewrite app_nil_r.
    + intros path H. now apply regular_put_File, regular_put_File.
Qed.

(** A second [fwrite] on a stream that is still open on a regular file. *)
Lemma fwrite_open (k : string) (bs : list byte) (d : directory) :
  k <> EmptyString ->
  (exists c, dir_lookup k d = Some (File c)) ->
  exists d2,
    fwrite bs (Some k) d = Ok d2
    /\ (exists c, dir_lookup k d2 = Some (File c))
    /\ (forall k', file_content k' d2
                   = file_content k' d ++ (if String.eqb k k' then bs else []))
    /\ (forall path, regular path d = true -> regular path d2 = true).
Proof.
  intros Hk [c E]. exists (dir_put k (File (c ++ bs)) d).
  cbn [fwrite]. rewrite E. repeat split.
  - eexists. apply dir_lookup_put_eq.
  - intros k'. rewrite file_content_put.
    destruct (String.eqb_spec k k') as [<-|].
    + unfold file_content. now rewrite E.
    + now rewrite app_nil_r.
  - intros path. now apply regular_put_File.
Qed.

(** The loop of the batch [store], once a stream is open on the shard of
    [weekno], or when the next record is of another week than [weekno]:
    every record is appended to the shard of its own week. *)
Lemma store_batch_loop_lands (name : string) :
  c_str name = name ->
  forall (data : list Datum) (weekno : Z) (fname : string) (fp : option FILE)
         (d : directory),
    (forall dt, In dt data ->
                regular (makeFilename name (timestamp dt)) d = true) ->
    ((fp = Some (name ++ "." ++ to_string weekno)%string
      /\ exists c, dir_lookup (name ++ "." ++ to_string weekno)%string d
                   = Some (File c))
     \/ match data with
        | [] => True
        | dt :: _ => getWeekNum (timestamp dt) <> weekno
        end) ->
    exists d',
      store_batch_loop name data weekno fname fp d = Ok d'
      /\ forall k, file_content k d' = file_content k d ++ batch_bytes name k data.
Proof.
  intros Hc. induction data as [|dt rest IH]; intros weekno fname fp d Hreg Hinv.
  - exists d. split; [reflexivity|]. intros k. cbn. now rewrite app_nil_r.
  - cbn [store_batch_loop].
    destruct (Z.eqb_spec (getWeekNum (timestamp dt)) weekno) as [Heq|Hne];
      cbn [negb].
    + destruct Hinv as [[-> Hopen]|Hinv]; [|contradiction].
      destruct (fwrite_open (name ++ "." ++ to_string weekno)%string
                  (encode_Val (mkVal (timestamp dt) (value dt))) d
                  (append_dot_not_empty _ _) Hopen)
        as (d2 & Hw & Hopen2 & Hcontent & Hkeep).
      rewrite Hw. cbn [bind].
      destruct (IH weekno fname
                  (Some (name ++ "." ++ to_string weekno)%string) d2)
        as (d' & Hrun & Hd').
      * intros x Hx. apply Hkeep, Hreg. now right.
      * left. now split.
      * exists d'. split; [exact Hrun|]. intros k.
        rewrite Hd', Hcontent. cbn [batch_bytes flat_map].
        unfold shard_entry at 1. rewrite Heq. now rewrite app_assoc.
    + destruct (append_record name (timestamp dt) (value dt) d Hc)
        as (d1 & d2 & Hopen & Hw & Hfile & Hcontent & Hkeep).
      { apply Hreg. now left. }
      rewrite Hopen. cbv beta iota. rewrite Hw. cbn [bind].
      destruct (IH (getWeekNum (timestamp dt))
                   (makeFilename name (timestamp dt))
                   (Some (shard_entry name (timestamp dt))) d2)
        as (d' & Hrun & Hd').
      * intros x Hx. apply Hkeep, Hreg. now right.
      * left. split; [reflexivity | exact Hfile].
      * exists d'. split; [exact Hrun|]. intros k.
        rewrite Hd', Hcontent. cbn [batch_bytes flat_map].
        now rewrite app_assoc.
Qed.

(** The batch [store] on a name it accepts and a batch that does not start
    in week 0: every record lands in the shard of its own week, in the order
    of the batch, whatever that order is. *)
Lemma store_batch_lands (name : string) (data : list Datum) (d : directory) :
  has_slash name = false -> c_str name = name ->
  match data with
  | [] => True
  | dt :: _ => getWeekNum (timestamp dt) <> 0
  end ->
  (forall dt, In dt data ->
              regular (makeFilename name (timestamp dt)) d = true) ->
  exists d',
    store_batch name data d = Ok d'
    /\ forall k, file_content k d' = file_content k d ++ batch_bytes name k data.
Proof.
  intros Hslash Hc Hfirst Hreg. unfold store_batch. rewrite Hslash.
  apply store_batch_loop_lands; auto.
Qed.

(** ** Listing the metrics *)

Lemma In_unique (m : string) : forall l, In m (unique l) -> In m l.
Proof.
  induction l as [|x l IH]; cbn [unique]; auto.
  destruct l as [|y l']; auto.
  destruct (String.eqb x y).
  - intros H. right. now apply IH.
  - intros [H|H]; [now left | right; now apply IH].
Qed.




(** ** Metrics whose names extend one another *)



Lemma retrieve_shard_included (A B : string) (t : Z) (d : directory) (x : Val) :
  c_str B = B ->
  (forall w, selects A (B ++ "." ++ w)%string = true) ->
  shards_regular A d = true ->
  In x (path_records (makeFilename B t) d) ->
  In (to_Datum x)
     (map to_Datum
        (flat_map (fun f => path_records (d_root ++ "/" ++ f)%string d)
                  (filter (selects A) (readdir d)))).
Proof.
  intros Hc Hsel Hreg Hin. apply in_map, in_flat_map.
  exists (B ++ "." ++ to_string (getWeekNum t))%string. split; [|exact Hin].
  apply filter_In. split; [|apply Hsel].
  unfold path_records in Hin. rewrite stat_path_makeFilename in Hin by exact Hc.
  destruct (dir_lookup _ d) as [e|] eqn:E; [|contradiction].
  eapply dir_lookup_In; eassumption.
Qed.


(** ** Sorted sequences and binary search *)

Lemma le_ts_trans : Relations_1.Transitive le_ts.
Proof. unfold Relations_1.Transitive, le_ts. intros; lia. Qed.

Lemma is_sorted_Sorted (l : list Val) :
  is_sorted l = true -> StronglySorted le_ts l.
Proof.
  intros H. apply Sorted_StronglySorted; [exact le_ts_trans|].
  induction l as [|a l IH]; [constructor|].
  cbn [is_sorted] in H. destruct l as [|b l'].
  - repeat constructor.
  - apply andb_prop in H as [Hab Hl]. constructor; [now apply IH|].
    constructor. unfold le_ts, val_lt in *.
    destruct (Z.ltb_spec (val_timestamp b) (val_timestamp a)); [discriminate|lia].
Qed.

Lemma sorted_nth (l : list Val) (dflt : Val) :
  StronglySorted le_ts l ->
  forall i j, (i <= j)%nat -> (j < List.length l)%nat ->
  val_timestamp (nth i l dflt) <= val_timestamp (nth j l dflt).
Proof.
  induction 1 as [|a l Hs IH Hall]; intros i j Hij Hj; simpl in Hj; [lia|].
  destruct i as [|i], j as [|j]; cbn [nth]; try lia.
  - rewrite Forall_forall in Hall. apply Hall, nth_In. lia.
  - apply IH; lia.
Qed.

Lemma lower_bound_from_spec (l : list Val) (x : Z) :
  StronglySorted le_ts l ->
  forall fuel first len,
  (len <= fuel)%nat -> (first + len <= List.length l)%nat ->
  (forall i, (i < first)%nat -> val_timestamp (nth i l (mkVal 0 0)) < x) ->
  (forall i, (first + len <= i < List.length l)%nat ->
             x <= val_timestamp (nth i l (mkVal 0 0))) ->
  let r := lower_bound_from fuel l first len x in
  (r <= List.length l)%nat
  /\ (forall i, (i < r)%nat -> val_timestamp (nth i l (mkVal 0 0)) < x)
  /\ (forall i, (r <= i < List.length l)%nat ->
                x <= val_timestamp (nth i l (mkVal 0 0))).
Proof.
  intros Hs. induction fuel as [|fuel IH]; intros first len Hfuel Hlen Hlo Hhi.
  - assert (len = 0)%nat by lia. subst len. cbn [lower_bound_from].
    repeat split; auto; [lia|]. intros i Hi. apply Hhi. lia.
  - cbn [lower_bound_from]. destruct len as [|len'].
    + repeat split; auto; [lia|]. intros i Hi. apply Hhi. lia.
    + set (half := Nat.div2 (S len')).
      assert (Hhalf : (half <= len')%nat).
      { subst half. rewrite Nat.div2_div.
        apply Nat.lt_succ_r, Nat.div_lt; lia. }
      unfold val_lt_int.
      destruct (Z.ltb_spec (val_timestamp (nth (first + half) l (mkVal 0 0))) x)
        as [Hlt|Hge].
      * apply IH; try lia.
        -- intros i Hi.
           pose proof (sorted_nth l (mkVal 0 0) Hs i (first + half)) as Hle.
           lia.
        -- intros i Hi. apply Hhi. lia.
      * apply IH; try lia; auto.
        intros i Hi.
        pose proof (sorted_nth l (mkVal 0 0) Hs (first + half) i) as Hle.
        lia.
Qed.

Lemma lower_bound_spec (l : list Val) (x : Z) :
  StronglySorted le_ts l ->
  let r := lower_bound l x in
  (r <= List.length l)%nat
  /\ (forall i, (i < r)%nat -> val_timestamp (nth i l (mkVal 0 0)) < x)
  /\ (forall i, (r <= i < List.length l)%nat ->
                x <= val_timestamp (nth i l (mkVal 0 0))).
Proof.
  intros Hs. unfold lower_bound. apply lower_bound_from_spec; auto; intros; lia.
Qed.

Lemma Forall_firstn_nth {A} (P : A -> Prop) (dflt : A) (l : list A) (r : nat) :
  (r <= List.length l)%nat ->
  (forall i, (i < r)%nat -> P (nth i l dflt)) -> Forall P (firstn r l).
Proof.
  intros Hr H. apply Forall_nth. intros i d' Hi.
  rewrite length_firstn in Hi.
  rewrite (nth_indep _ d' dflt) by (rewrite length_firstn; lia).
  rewrite nth_firstn. destruct (Nat.ltb_spec i r); [|lia]. apply H. lia.
Qed.

Lemma Forall_skipn_nth {A} (P : A -> Prop) (dflt : A) (l : list A) (r : nat) :
  (forall i, (r <= i < List.length l)%nat -> P (nth i l dflt)) ->
  Forall P (skipn r l).
Proof.
  intros H. apply Forall_nth. intros i d' Hi.
  rewrite length_skipn in Hi.
  rewrite (nth_indep _ d' dflt) by (rewrite length_skipn; lia).
  rewrite nth_skipn. apply H. lia.
Qed.

Lemma filter_none {A} (f : A -> bool) (l : list A) :
  Forall (fun x => f x = false) l -> filter f l = [].
Proof.
  induction 1 as [|x l Hx _ IH]; simpl; auto. now rewrite Hx.
Qed.

Lemma filter_all {A} (f : A -> bool) (l : list A) :
  Forall (fun x => f x = true) l -> filter f l = l.
Proof.
  induction 1 as [|x l Hx _ IH]; simpl; auto. rewrite Hx. now f_equal.
Qed.

(** On a sorted sequence the slice between the two lower bounds is the
    subsequence of the timestamps in [begin, end). *)
Lemma slice_lower_bounds (l : list Val) (begin end_ : Z) :
  StronglySorted le_ts l ->
  begin <= end_ ->
  (lower_bound l begin <= lower_bound l end_)%nat
  /\ slice (lower_bound l begin) (lower_bound l end_) l
     = filter (val_in_interval begin end_) l.
Proof.
  intros Hs Hbe.
  destruct (lower_bound_spec l begin Hs) as (Hb & Hblo & Hbhi).
  destruct (lower_bound_spec l end_ Hs) as (He & Helo & Hehi).
  set (b := lower_bound l begin) in *. set (e := lower_bound l end_) in *.
  assert (Hle : (b <= e)%nat).
  { destruct (Nat.le_gt_cases b e) as [|Hlt]; auto.
    specialize (Hblo e Hlt). specialize (Hehi e). lia. }
  split; [exact Hle|].
  unfold slice.
  transitivity
    (filter (val_in_interval begin end_)
       (firstn b l ++ firstn (e - b) (skipn b l) ++ skipn (e - b) (skipn b l))).
  2:{ now rewrite !firstn_skipn. }
  rewrite !filter_app.
  rewrite (filter_none _ (firstn b l)).
  2:{ eapply Forall_impl; [|apply (Forall_firstn_nth (fun v => val_timestamp v < begin) (mkVal 0 0) l b Hb Hblo)].
      intros v Hv. unfold val_in_interval. cbn beta in Hv.
      destruct (Z.leb_spec begin (val_timestamp v)); [lia | reflexivity]. }
  rewrite (filter_none _ (skipn (e - b) (skipn b l))).
  2:{ rewrite skipn_skipn. replace (e - b + b)%nat with e by lia.
      eapply Forall_impl; [|apply (Forall_skipn_nth (fun v => end_ <= val_timestamp v) (mkVal 0 0) l e Hehi)].
      intros v Hv. unfold val_in_interval. cbn beta in Hv.
      destruct (Z.ltb_spec (val_timestamp v) end_); [lia|].
      apply andb_false_r. }
  rewrite app_nil_r. cbn [app]. symmetry. apply filter_all.
  apply Forall_nth. intros i d' Hi.
  rewrite length_firstn, length_skipn in Hi.
  rewrite (nth_indep _ d' (mkVal 0 0)) by (rewrite length_firstn, length_skipn; lia).
  rewrite nth_firstn. destruct (Nat.ltb_spec i (e - b)); [|lia].
  rewrite nth_skipn. unfold val_in_interval.
  specialize (Hbhi (b + i)%nat). specialize (Helo (b + i)%nat).
  apply andb_true_intro. split; [apply Z.leb_le | apply Z.ltb_lt]; lia.
Qed.

Lemma StronglySorted_skipn {A} (R : A -> A -> Prop) (l : list A) :
  StronglySorted R l -> forall n, StronglySorted R (skipn n l).
Proof.
  induction 1 as [|a l Hs IH Hall]; intros [|n]; cbn [skipn]; auto.
  - constructor.
  - constructor.
  - now constructor.
Qed.

Lemma StronglySorted_firstn {A} (R : A -> A -> Prop) (l : list A) :
  StronglySorted R l -> forall n, StronglySorted R (firstn n l).
Proof.
  induction 1 as [|a l Hs IH Hall]; intros [|n]; cbn [firstn];
    try constructor; auto.
  rewrite Forall_forall in *. intros x Hx. apply Hall.
  rewrite <- (firstn_skipn n l). apply in_or_app. now left.
Qed.

Lemma StronglySorted_to_Datum (l : list Val) :
  StronglySorted le_ts l -> StronglySorted Datum_le (map to_Datum l).
Proof.
  induction 1 as [|a l Hs IH Hall]; cbn [map]; constructor; auto.
  rewrite Forall_forall in *. intros x Hx.
  apply in_map_iff in Hx as (v & <- & Hv). exact (Hall v Hv).
Qed.


(** ** The loop over the weeks of a range *)

Lemma for_weeks_steps {A} (body : Z -> list A -> result (list A))
    (h : Z -> list A) (bound : Z) :
  bound + 7 * 86400 <= 2 ^ 32 ->
  (forall t s, 0 <= t < bound -> body t s = Ok (s ++ h t)) ->
  forall n fuel t s,
    (n < fuel)%nat -> 0 <= t ->
    (n <> 0%nat -> t + (Z.of_nat n - 1) * (7 * 86400) < bound) ->
    bound <= t + Z.of_nat n * (7 * 86400) ->
    for_weeks fuel body t bound s = Ok (s ++ flat_map h (steps n t)).
Proof.
  intros Hbound Hbody. induction n as [|n IH]; intros fuel t s Hfuel Ht Hlast Hstop.
  - destruct fuel as [|fuel]; [lia|]. cbn [for_weeks steps flat_map].
    destruct (Z.ltb_spec t bound); [lia|]. now rewrite app_nil_r.
  - destruct fuel as [|fuel]; [lia|]. cbn [for_weeks steps flat_map].
    assert (Hlt : t < bound) by lia.
    destruct (Z.ltb_spec t bound); [|lia].
    rewrite Hbody by lia. cbn [bind].
    unfold wrap32. rewrite Z.mod_small by lia.
    rewrite IH by lia. now rewrite app_assoc.
Qed.

Lemma turns_last (begin end_ : Z) :
  begin <= end_ ->
  begin + (Z.of_nat (turns begin end_) - 1) * (7 * 86400) < end_ + 7 * 86400.
Proof.
  intros H. unfold turns.
  assert (0 <= (end_ - begin + 7 * 86400 - 1) / (7 * 86400))
    by (apply Z.div_pos; lia).
  rewrite Z2Nat.id by lia.
  pose proof (Z.mul_div_le (end_ - begin + 7 * 86400 - 1) (7 * 86400)). lia.
Qed.

Lemma turns_stop (begin end_ : Z) :
  begin <= end_ ->
  end_ + 7 * 86400 <= begin + Z.of_nat (turns begin end_) * (7 * 86400).
Proof.
  intros H. unfold turns.
  assert (0 <= (end_ - begin + 7 * 86400 - 1) / (7 * 86400))
    by (apply Z.div_pos; lia).
  rewrite Z2Nat.id by lia.
  pose proof (Z.mul_succ_div_gt (end_ - begin + 7 * 86400 - 1) (7 * 86400)). lia.
Qed.

Lemma turns_bound (begin end_ : Z) :
  begin <= end_ -> Z.of_nat (turns begin end_) <= (end_ - begin) / (7 * 86400) + 2.
Proof.
  intros H. unfold turns.
  assert (0 <= (end_ - begin + 7 * 86400 - 1) / (7 * 86400))
    by (apply Z.div_pos; lia).
  rewrite Z2Nat.id by lia.
  replace (end_ - begin + 7 * 86400 - 1)
    with ((end_ - begin - 1) + 1 * (7 * 86400)) by lia.
  rewrite Z.div_add by lia.
  assert ((end_ - begin - 1) / (7 * 86400) <= (end_ - begin) / (7 * 86400))
    by (apply Z.div_le_mono; lia).
  lia.
Qed.

Lemma getWeekNum_week (w : Z) : getWeekNum (w * (7 * 86400)) = w.
Proof. unfold getWeekNum. apply Z.div_mul. lia. Qed.

Lemma getWeekNum_next (t : Z) : getWeekNum (t + 7 * 86400) = getWeekNum t + 1.
Proof.
  unfold getWeekNum. replace (t + 7 * 86400) with (t + 1 * (7 * 86400)) by lia.
  apply Z.div_add. lia.
Qed.

Lemma getWeekNum_bounds (t : Z) :
  getWeekNum t * (7 * 86400) <= t < (getWeekNum t + 1) * (7 * 86400).
Proof.
  unfold getWeekNum.
  pose proof (Z.mul_div_le t (7 * 86400)).
  pose proof (Z.mul_succ_div_gt t (7 * 86400)). lia.
Qed.

Lemma makeFilename_week (name : string) (t : Z) :
  makeFilename name t = makeFilename name (getWeekNum t * (7 * 86400)).
Proof. unfold makeFilename. now rewrite getWeekNum_week. Qed.

Lemma map_getWeekNum_steps (n : nat) : forall t,
  map getWeekNum (steps n t) = weeks_from n (getWeekNum t).
Proof.
  induction n as [|n IH]; intros t; cbn [steps weeks_from map]; auto.
  now rewrite IH, getWeekNum_next.
Qed.

Lemma weeks_from_app (a b : nat) : forall w,
  weeks_from (a + b) w = weeks_from a w ++ weeks_from b (w + Z.of_nat a).
Proof.
  induction a as [|a IH]; intros w.
  - cbn [weeks_from Nat.add app]. f_equal. lia.
  - cbn [weeks_from Nat.add app]. rewrite IH. do 3 f_equal. lia.
Qed.

Lemma In_weeks_from (n : nat) : forall w0 w,
  In w (weeks_from n w0) <-> w0 <= w < w0 + Z.of_nat n.
Proof.
  induction n as [|n IH]; intros w0 w; cbn [weeks_from In].
  - lia.
  - rewrite IH. lia.
Qed.

Lemma In_all_weeks (w : Z) : In w all_weeks <-> 0 <= w < 7102.
Proof. unfold all_weeks. rewrite In_weeks_from. lia. Qed.

Lemma week_of_uint32 (t : Z) : 0 <= t < 2 ^ 32 -> In (getWeekNum t) all_weeks.
Proof.
  intros H. apply In_all_weeks. pose proof (getWeekNum_bounds t). lia.
Qed.

Lemma flat_map_map {A B C} (f : B -> list C) (g : A -> B) (l : list A) :
  flat_map f (map g l) = flat_map (fun x => f (g x)) l.
Proof. induction l as [|a l IH]; simpl; congruence. Qed.

Lemma filter_flat_map_none {A B} (P : B -> bool) (f : A -> list B) (l : list A) :
  (forall a x, In a l -> In x (f a) -> P x = false) ->
  filter P (flat_map f l) = [].
Proof.
  intros H. apply filter_none, Forall_forall. intros x Hx.
  apply in_flat_map in Hx as (a & Ha & Hx). eauto.
Qed.

Lemma Permutation_filter {A} (P : A -> bool) (l l' : list A) :
  Permutation l l' -> Permutation (filter P l) (filter P l').
Proof.
  induction 1 as [| x l l' _ IH | x y l | l l' l'' _ IH1 _ IH2]; simpl.
  - constructor.
  - destruct (P x); auto.
  - destruct (P x), (P y); auto. constructor.
  - eapply Permutation_trans; eassumption.
Qed.

Lemma shards_in_week_spec (name : string) (d : directory) (w : Z) (x : Val) :
  shards_in_week name d = true ->
  In w all_weeks -> In x (shard_records name w d) ->
  getWeekNum (val_timestamp x) = w.
Proof.
  unfold shards_in_week. rewrite forallb_forall. intros H Hw Hx.
  specialize (H w Hw). rewrite forallb_forall in H. now apply Z.eqb_eq, H.
Qed.

(** The loop of [retrieveVals] over a range that stays clear of the end of
    the [uint32] timestamps reads the shards of consecutive weeks. *)
Lemma retrieve_loop_weeks (name : string) (begin end_ : Z) (d : directory)
    (fuel : nat) :
  0 <= begin <= end_ -> end_ + 2 * (7 * 86400) <= 2 ^ 32 ->
  shards_openable name d = true ->
  (turns begin end_ < fuel)%nat ->
  for_weeks fuel
    (fun t values => retrieveAllFromFile (makeFilename name t) d values)
    begin (wrap32 (end_ + 7 * 86400)) []
  = Ok (flat_map (fun w => shard_records name w d)
                 (weeks_from (turns begin end_) (getWeekNum begin))).
Proof.
  intros Hbe Hend Hopen Hfuel.
  unfold wrap32. rewrite Z.mod_small by lia.
  assert (Hbody : forall t s, 0 <= t < end_ + 7 * 86400 ->
            retrieveAllFromFile (makeFilename name t) d s
            = Ok (s ++ path_records (makeFilename name t) d)).
  { intros t s Ht. apply retrieveAllFromFile_regular.
    rewrite makeFilename_week.
    unfold shards_openable in Hopen. rewrite forallb_forall in Hopen.
    apply Hopen, week_of_uint32. lia. }
  rewrite (for_weeks_steps _ (fun t => path_records (makeFilename name t) d)
             (end_ + 7 * 86400) ltac:(lia) Hbody (turns begin end_)).
  - cbn [app]. rewrite <- map_getWeekNum_steps, flat_map_map.
    f_equal. apply flat_map_ext. intros t.
    unfold shard_records. now rewrite <- makeFilename_week.
  - exact Hfuel.
  - lia.
  - intros _. apply turns_last. lia.
  - apply turns_stop. lia.
Qed.


(** ** The range query *)

(** Outside the weeks the loop reads, no stored record lies in the range. *)
Lemma stored_in_interval (name : string) (begin end_ : Z) (d : directory) :
  0 <= begin <= end_ -> end_ + 2 * (7 * 86400) <= 2 ^ 32 ->
  shards_in_week name d = true ->
  filter (val_in_interval begin end_)
         (flat_map (fun w => shard_records name w d) all_weeks)
  = filter (val_in_interval begin end_)
           (flat_map (fun w => shard_records name w d)
                     (weeks_from (turns begin end_) (getWeekNum begin))).
Proof.
  intros Hbe Hend Hweek.
  pose proof (getWeekNum_bounds begin) as Hwb.
  pose proof (turns_last begin end_ ltac:(lia)) as Hlast.
  pose proof (turns_stop begin end_ ltac:(lia)) as Hstop.
  set (n := turns begin end_) in *. set (wb := getWeekNum begin) in *.
  assert (Hwb0 : 0 <= wb) by lia.
  assert (Hfit : wb + Z.of_nat n <= 7102) by lia.
  unfold all_weeks.
  replace (Z.to_nat 7102)
    with (Z.to_nat wb + (n + (Z.to_nat 7102 - Z.to_nat wb - n)))%nat by lia.
  rewrite !weeks_from_app, !flat_map_app, !filter_app.
  replace (0 + Z.of_nat (Z.to_nat wb)) with wb by lia.
  rewrite (filter_flat_map_none _ _ (weeks_from (Z.to_nat wb) 0)).
  2:{ intros w x Hw Hx. apply In_weeks_from in Hw.
      assert (Hall : In w all_weeks) by (apply In_all_weeks; lia).
      pose proof (shards_in_week_spec name d w x Hweek Hall Hx) as Hwx.
      pose proof (getWeekNum_bounds (val_timestamp x)) as Hx'.
      rewrite Hwx in Hx'. unfold val_in_interval.
      destruct (Z.leb_spec begin (val_timestamp x)); [lia | reflexivity]. }
  rewrite (filter_flat_map_none _ _ (weeks_from _ (wb + Z.of_nat n))).
  2:{ intros w x Hw Hx. apply In_weeks_from in Hw.
      assert (Hall : In w all_weeks) by (apply In_all_weeks; lia).
      pose proof (shards_in_week_spec name d w x Hweek Hall Hx) as Hwx.
      pose proof (getWeekNum_bounds (val_timestamp x)) as Hx'.
      rewrite Hwx in Hx'. unfold val_in_interval.
      destruct (Z.ltb_spec (val_timestamp x) end_); [lia|].
      apply andb_false_r. }
  now rewrite app_nil_r.
Qed.

(** The last steps of [retrieve(name, begin, end, number)] on a sorted
    sequence. *)
Lemma retrieve_slice (values : list Val) (begin end_ : Z) :
  StronglySorted le_ts values -> begin <= end_ ->
  match values with
  | [] => Ok []
  | _ =>
      if (lower_bound values end_ <? lower_bound values begin)%nat
      then Err LengthError
      else Ok (map to_Datum
                 (slice (lower_bound values begin) (lower_bound values end_)
                        values))
  end
  = Ok (map to_Datum (filter (val_in_interval begin end_) values)).
Proof.
  intros Hs Hbe. destruct values as [|v r] eqn:E; [reflexivity|].
  rewrite <- E in *.
  destruct (slice_lower_bounds values begin end_ Hs Hbe) as [Hle Hsl].
  destruct (Nat.ltb_spec (lower_bound values end_) (lower_bound values begin));
    [lia|].
  now rewrite Hsl.
Qed.

Lemma sort_if_needed (values : list Val) :
  let values' := if negb (is_sorted values) then std_sort values else values in
  StronglySorted le_ts values' /\ Permutation values' values.
Proof.
  destruct (is_sorted values) eqn:E; cbn [negb]; split; auto.
  now apply is_sorted_Sorted.
Qed.

Lemma StronglySorted_filter {A} (R : A -> A -> Prop) (P : A -> bool) (l : list A) :
  StronglySorted R l -> StronglySorted R (filter P l).
Proof.
  induction 1 as [|a l Hs IH Hall]; cbn [filter]; [constructor|].
  destruct (P a); auto. constructor; auto.
  rewrite Forall_forall in *. intros x Hx. apply filter_In in Hx as [Hx _]. auto.
Qed.

(** The range query on a range that stays two weeks clear of the end of
    the [uint32] timestamps: it returns, and what it returns is the part in
    [begin, end) of the sorted shards it read. *)
Lemma retrieve_range_returns (fuel : nat) (name : string)
    (begin end_ number : Z) (d : directory) :
  has_slash name = false ->
  0 <= begin <= end_ -> end_ + 2 * (7 * 86400) <= 2 ^ 32 ->
  shards_openable name d = true ->
  (end_ - begin) / (7 * 86400) + 3 <= Z.of_nat fuel ->
  exists values',
    StronglySorted le_ts values'
    /\ Permutation values'
         (flat_map (fun w => shard_records name w d)
                   (weeks_from (turns begin end_) (getWeekNum begin)))
    /\ retrieve_range fuel name begin end_ number d
       = Ok (map to_Datum (filter (val_in_interval begin end_) values')).
Proof.
  intros Hslash Hbe Hend Hopen Hfuel.
  pose proof (turns_bound begin end_ ltac:(lia)) as Hturns.
  unfold retrieve_range.
  replace (wrap32 begin) with begin
    by (unfold wrap32; rewrite Z.mod_small; lia).
  replace (wrap32 end_) with end_
    by (unfold wrap32; rewrite Z.mod_small; lia).
  unfold retrieveVals_range. rewrite Hslash.
  rewrite retrieve_loop_weeks by (auto; lia). cbn [bind].
  set (values := flat_map _ _).
  destruct (sort_if_needed values) as [Hs Hp].
  replace (if negb (is_sorted values) then Ok (std_sort values) else Ok values)
    with (Ok (if negb (is_sorted values) then std_sort values else values))
    by (now destruct (is_sorted values)).
  cbn [bind]. cbv zeta in Hs, Hp.
  set (values' := if negb (is_sorted values) then std_sort values else values) in *.
  exists values'. repeat split; auto.
  apply (retrieve_slice values' begin end_ Hs). lia.
Qed.

Lemma retrieve_range_exact (fuel : nat) (name : string) (begin end_ number : Z)
    (d : directory) :
  has_slash name = false ->
  0 <= begin <= end_ -> end_ + 2 * (7 * 86400) <= 2 ^ 32 ->
  shards_openable name d = true ->
  shards_in_week name d = true ->
  (end_ - begin) / (7 * 86400) + 3 <= Z.of_nat fuel ->
  exists l,
    retrieve_range fuel name begin end_ number d = Ok l
    /\ Permutation l (filter (in_interval begin end_) (stored name d))
    /\ StronglySorted Datum_le l.
Proof.
  intros Hslash Hbe Hend Hopen Hweek Hfuel.
  destruct (retrieve_range_returns fuel name begin end_ number d)
    as (values' & Hs & Hp & Hret); auto.
  eexists. split; [exact Hret|]. split.
  - unfold stored. rewrite filter_map_swap.
    apply Permutation_map.
    change (fun a => in_interval begin end_ (to_Datum a))
      with (val_in_interval begin end_).
    rewrite stored_in_interval by auto.
    now apply Permutation_filter.
  - now apply StronglySorted_to_Datum, StronglySorted_filter.
Qed.

(** Whatever the range query returns is sorted. *)
Lemma retrieve_range_sorted (fuel : nat) (name : string) (begin end_ number : Z)
    (d : directory) (l : list Datum) :
  retrieve_range fuel name begin end_ number d = Ok l ->
  StronglySorted Datum_le l.
Proof.
  unfold retrieve_range, retrieveVals_range.
  destruct (has_slash name); cbn [bind].
  - intros H. injection H as <-. constructor.
  - destruct (for_weeks _ _ _ _ _) as [values| |]; cbn [bind]; try discriminate.
    destruct (sort_if_needed values) as [Hs _]. cbv zeta in Hs.
    destruct (negb (is_sorted values)); cbn [bind].
    + destruct (std_sort values) as [|v r] eqn:E.
      * intros H. injection H as <-. constructor.
      * rewrite <- E in *. destruct (Nat.ltb _ _); [discriminate|].
        intros H. injection H as <-.
        apply StronglySorted_to_Datum. unfold slice.
        now apply StronglySorted_firstn, StronglySorted_skipn.
    + destruct values as [|v r] eqn:E.
      * intros H. injection H as <-. constructor.
      * rewrite <- E in *. destruct (Nat.ltb _ _); [discriminate|].
        intros H. injection H as <-.
        apply StronglySorted_to_Datum. unfold slice.
        now apply StronglySorted_firstn, StronglySorted_skipn.
Qed.


(** ** Shard names *)

Lemma has_dot_digits (u : Decimal.uint) :
  has_dot (NilEmpty.string_of_uint u) = false.
Proof. induction u; simpl; auto. Qed.

Lemma to_string_digits (n : Z) :
  to_string n = NilEmpty.string_of_uint (N.to_uint (Z.to_N n)).
Proof.
  unfold to_string, NilZero.string_of_uint.
  destruct (Z.to_N n) as [|p] eqn:E; [reflexivity|].
  cbn [N.to_uint].
  pose proof (DecimalPos.Unsigned.to_uint_nonnil p).
  now destruct (Pos.to_uint p).
Qed.

Lemma has_dot_to_string (n : Z) : has_dot (to_string n) = false.
Proof. rewrite to_string_digits. apply has_dot_digits. Qed.

Lemma to_string_inj (n m : Z) :
  0 <= n -> 0 <= m -> to_string n = to_string m -> n = m.
Proof.
  intros Hn Hm H. rewrite !to_string_digits in H.
  apply (f_equal NilEmpty.uint_of_string) in H.
  rewrite !NilEmpty.usu in H. injection H as H.
  apply DecimalN.Unsigned.to_uint_inj in H. lia.
Qed.

Lemma has_dot_append (a b : string) : has_dot (a ++ "." ++ b)%string = true.
Proof.
  induction a as [|c a IH]; simpl in *; auto. rewrite IH. apply orb_true_r.
Qed.

(** A shard name splits at its last dot in one way only. *)
Lemma shard_name_inj (a b s s' : string) :
  has_dot s = false -> has_dot s' = false ->
  (a ++ "." ++ s)%string = (b ++ "." ++ s')%string -> a = b /\ s = s'.
Proof.
  intros Hs Hs'. revert b. induction a as [|c a IH]; intros [|c' b] H.
  - simpl in H. injection H as H. auto.
  - simpl in H. injection H as _ H. subst s.
    pose proof (has_dot_append b s') as X. simpl in X. congruence.
  - simpl in H. injection H as _ H. subst s'.
    pose proof (has_dot_append a s) as X. simpl in X. congruence.
  - simpl in H. injection H as -> H.
    destruct (IH b H) as [-> ->]. auto.
Qed.

Lemma makeFilename_inj_week (name name' : string) (w w' : Z) :
  0 <= w -> 0 <= w' ->
  (name ++ "." ++ to_string w)%string = (name' ++ "." ++ to_string w')%string ->
  name = name' /\ w = w'.
Proof.
  intros Hw Hw' H.
  apply shard_name_inj in H as [-> H]; try apply has_dot_to_string.
  split; [reflexivity | now apply to_string_inj].
Qed.

(** ** The directories that [store] makes *)

Lemma In_readdir_lookup (k : string) (d : directory) :
  In k (readdir d) -> exists e, dir_lookup k d = Some e.
Proof.
  induction d as [|[k' e'] d IH]; simpl; [contradiction|].
  destruct (String.eqb_spec k k') as [|Hne]; eauto.
  intros [->|Hin]; [contradiction | auto].
Qed.

Lemma to_string_not_empty (n : Z) : to_string n <> EmptyString.
Proof.
  unfold to_string, NilZero.string_of_uint.
  destruct (N.to_uint (Z.to_N n)); discriminate.
Qed.

Lemma valid_name_not_empty (name : string) :
  valid_name name = true -> name <> EmptyString.
Proof. intros Hv ->. discriminate Hv. Qed.

(** No shard is called [.] or [..]. *)
Lemma shard_not_dot (name s : string) :
  name <> EmptyString -> s <> EmptyString ->
  dot_entry (name ++ "." ++ s)%string = false.
Proof.
  intros Hname Hs. unfold dot_entry. apply orb_false_iff.
  destruct name as [|c r]; [contradiction|].
  split; apply String.eqb_neq; intros E; cbn [append] in E;
    inversion E as [[Hc Hr]].
  - destruct r; discriminate.
  - destruct r as [|c' r']; cbn [append] in Hr.
    + inversion Hr. congruence.
    + inversion Hr as [[Hc' Hr']]. destruct r'; discriminate.
Qed.

(** The names that pick [.] or [..] from the listing are [.] and [..]. *)
Lemma selects_dot_entry (name f : string) :
  name <> EmptyString -> dot_entry f = true -> selects name f = true ->
  dot_entry name = true.
Proof.
  intros Hname Hf Hsel. unfold selects in Hsel.
  apply orb_true_iff in Hsel as [Hp|He];
    [|apply String.eqb_eq in He; now subst f].
  unfold dot_entry in Hf.
  destruct name as [|c r]; [contradiction|].
  apply orb_true_iff in Hf as [Hf|Hf]; apply String.eqb_eq in Hf; subst f;
    cbn [append String.prefix] in Hp;
    (destruct (ascii_dec c ".") as [->|]; [|discriminate Hp]).
  - destruct r; discriminate Hp.
  - destruct r as [|c' r']; [reflexivity|].
    cbn [append String.prefix] in Hp.
    destruct (ascii_dec c' "."); [|discriminate Hp].
    destruct r'; discriminate Hp.
Qed.

Lemma empty_root_lookup (k : string) (e : entry) (d : directory) :
  empty_root d = true -> dir_lookup k d = Some e ->
  dot_entry k = true /\ exists sz, e = Dir sz.
Proof.
  induction d as [|[k' e'] d IH]; cbn [empty_root forallb dir_lookup fst snd];
    [discriminate|].
  intros H E. apply andb_true_iff in H as [H Hd].
  apply andb_true_iff in H as [Hk He].
  destruct (String.eqb_spec k k') as [->|_]; [|now apply IH].
  injection E as <-. split; [exact Hk|].
  destruct e' as [c|sz]; [discriminate | now exists sz].
Qed.

Lemma dot_entry_proper (k : string) :
  dot_entry k = true -> k <> EmptyString /\ c_str k = k.
Proof.
  unfold dot_entry. intros H.
  apply orb_true_iff in H as [H|H]; apply String.eqb_eq in H; subst k;
    split; (discriminate || reflexivity).
Qed.

Lemma healthy_empty_root (d : directory) : empty_root d = true -> healthy d.
Proof.
  intros Hd k e E. destruct (empty_root_lookup k e d Hd E) as [Hk He].
  destruct (dot_entry_proper k Hk) as [Hne Hc]. auto.
Qed.

(** In a healthy directory what is listed under a shard name is a regular
    file of whole records of its week. *)
Lemma healthy_shard (name s : string) (e : entry) (d : directory) :
  healthy d -> name <> EmptyString -> s <> EmptyString ->
  dir_lookup (name ++ "." ++ s)%string d = Some e ->
  exists c,
    e = File c
    /\ Z.of_nat (List.length c) mod sizeof_Val = 0
    /\ forall name' w,
         0 <= w -> (name ++ "." ++ s)%string = (name' ++ "." ++ to_string w)%string ->
         Forall (fun x => getWeekNum (val_timestamp x) = w)
                (fread (File c) (filesize (File c) / sizeof_Val)).
Proof.
  intros Hd Hname Hs E.
  destruct (Hd _ e E) as (_ & _ & [[Hdot _]|H]); [|exact H].
  rewrite shard_not_dot in Hdot by assumption. discriminate.
Qed.

Lemma healthy_target (name : string) (t : Z) (d : directory) :
  healthy d -> valid_name name = true ->
  regular (makeFilename name t) d = true.
Proof.
  intros Hd Hv. unfold regular.
  rewrite stat_path_makeFilename by now apply valid_name_c_str.
  destruct (dir_lookup _ d) as [e|] eqn:E; auto.
  destruct (healthy_shard name _ e d Hd (valid_name_not_empty _ Hv)
              (to_string_not_empty _) E) as (c & -> & _).
  reflexivity.
Qed.

Lemma getWeekNum_nonneg (t : Z) : 0 <= t -> 0 <= getWeekNum t.
Proof. intros H. unfold getWeekNum. apply Z.div_pos; lia. Qed.

Lemma store_healthy (name : string) (t v : Z) (d d' : directory) :
  healthy d ->
  valid_name name = true -> uint32 t -> uint32 v ->
  store name t v d = Ok d' ->
  healthy d'.
Proof.
  intros Hd Hv Ht Hval Hst.
  pose proof (valid_name_c_str _ Hv) as Hc.
  pose proof (valid_name_not_empty _ Hv) as Hname.
  set (k := (name ++ "." ++ to_string (getWeekNum t))%string).
  pose proof (healthy_target name t d Hd Hv) as Hreg.
  destruct (store_valid name t v d Hv Hreg) as (d1 & Hst1 & Hk & Hother & _).
  rewrite Hst in Hst1. injection Hst1 as <-. fold k in Hk, Hother.
  intros k' e' E'. destruct (String.eqb_spec k' k) as [->|Hne].
  - rewrite Hk in E'. injection E' as <-.
    split; [apply append_dot_not_empty|].
    split; [now apply c_str_shard|].
    right.
    set (old := match dir_lookup k d with Some (File c) => c | _ => [] end).
    assert (Hold : Z.of_nat (List.length old) mod sizeof_Val = 0
                   /\ forall name' w, 0 <= w ->
                        k = (name' ++ "." ++ to_string w)%string ->
                        Forall (fun x => getWeekNum (val_timestamp x) = w)
                          (fread (File old) (filesize (File old) / sizeof_Val))).
    { subst old. destruct (dir_lookup k d) as [e|] eqn:E.
      - destruct (healthy_shard name _ e d Hd Hname (to_string_not_empty _) E)
          as (c & -> & Hlen & Hweek).
        auto.
      - split; [reflexivity|]. intros; constructor. }
    destruct Hold as [Hlen Hweek].
    eexists. split; [reflexivity|].
    unfold sizeof_Val in *.
    apply Z.mod_divide in Hlen; [|lia]. destruct Hlen as [q Hq].
    assert (Hq0 : 0 <= q) by lia.
    rewrite length_app, length_encode_Val, Nat2Z.inj_add, Hq.
    change (Z.of_nat 8) with (1 * 8). rewrite <- Z.mul_add_distr_r.
    split; [apply Z_mod_mult|].
    intros name' w Hw Hkw. cbn [fread filesize].
    rewrite length_app, length_encode_Val, Nat2Z.inj_add, Hq.
    change (Z.of_nat 8) with (1 * 8). rewrite <- Z.mul_add_distr_r.
    rewrite Z.div_mul by lia.
    replace (Z.to_nat (q + 1)) with (S (Z.to_nat q)) by lia.
    rewrite fread_Vals_snoc by (cbn [val_timestamp val_value]; auto; lia).
    apply Forall_app. split.
    + specialize (Hweek name' w Hw Hkw). cbn [fread filesize] in Hweek.
      rewrite Hq, Z.div_mul in Hweek by lia. exact Hweek.
    + constructor; [|constructor]. cbn [val_timestamp].
      unfold k in Hkw.
      apply makeFilename_inj_week in Hkw as [_ Hkw]; auto.
      apply getWeekNum_nonneg. unfold uint32 in Ht. lia.
  - rewrite Hother in E' by exact Hne. exact (Hd k' e' E').
Qed.

Lemma written_healthy (d : directory) : written d -> healthy d.
Proof.
  induction 1 as [d Hd|name t v d d' _ IH Hv Ht Hval Hst].
  - now apply healthy_empty_root.
  - exact (store_healthy name t v d d' IH Hv Ht Hval Hst).
Qed.

(** A healthy directory meets the conditions of the ranged read and of
    [store] for every valid name, and those of the unranged read for every
    valid name but [.] and [..]. *)
Lemma healthy_conditions (name : string) (d : directory) :
  healthy d -> valid_name name = true ->
  (dot_entry name = false -> shards_regular name d = true)
  /\ shards_openable name d = true
  /\ shards_in_week name d = true
  /\ forall t, whole_records (makeFilename name t) d = true.
Proof.
  intros Hd Hv. pose proof (valid_name_c_str _ Hv) as Hc.
  pose proof (valid_name_not_empty _ Hv) as Hname.
  split; [|split; [|split]].
  - intros Hnd. apply shards_regular_spec. intros f Hin Hsel.
    destruct (In_readdir_lookup f d Hin) as [e E].
    destruct (Hd f e E) as (Hne & Hcf & [[Hdot _]|(c & -> & _)]).
    + rewrite (selects_dot_entry name f Hname Hdot Hsel) in Hnd.
      discriminate.
    + unfold regular. rewrite stat_path_listed by auto. now rewrite E.
  - unfold shards_openable. apply forallb_forall. intros w _.
    now apply healthy_target.
  - unfold shards_in_week. apply forallb_forall. intros w Hw.
    apply In_all_weeks in Hw. apply forallb_forall. intros x Hx.
    apply Z.eqb_eq. unfold shard_records, path_records in Hx.
    rewrite stat_path_makeFilename in Hx by exact Hc.
    rewrite getWeekNum_week in Hx.
    destruct (dir_lookup _ d) as [e|] eqn:E; [|contradiction].
    destruct (healthy_shard name _ e d Hd Hname (to_string_not_empty _) E)
      as (c & -> & _ & Hweek).
    specialize (Hweek name w ltac:(lia) eq_refl).
    rewrite Forall_forall in Hweek. now apply Hweek.
  - intros t. unfold whole_records.
    rewrite stat_path_makeFilename by exact Hc.
    destruct (dir_lookup _ d) as [e|] eqn:E; auto.
    destruct (healthy_shard name _ e d Hd Hname (to_string_not_empty _) E)
      as (c & -> & Hlen & _).
    now apply Z.eqb_eq.
Qed.

(** ** Rejected names *)

Lemma store_rejected (name : string) (t v : Z) (d : directory) :
  has_slash name = true \/ regexec_d_preg (c_str name) = false ->
  store name t v d = Ok d.
Proof.
  unfold store. intros [H|H].
  - now rewrite H.
  - destruct (has_slash name); [reflexivity|]. now rewrite H.
Qed.

Lemma store_batch_slash (name : string) (data : list Datum) (d : directory) :
  has_slash name = true -> store_batch name data d = Ok d.
Proof. unfold store_batch. now intros ->. Qed.

(** ** The loop near the end of the [uint32] timestamps *)

(** A range whose bound wraps below [begin] is not read at all. *)
Lemma retrieve_range_overflow_empty (fuel : nat) (name : string)
    (begin end_ number : Z) (d : directory) :
  0 <= begin <= end_ -> end_ < 2 ^ 32 ->
  2 ^ 32 <= end_ + 7 * 86400 ->
  end_ + 7 * 86400 - 2 ^ 32 <= begin ->
  retrieve_range (S fuel) name begin end_ number d = Ok [].
Proof.
  intros Hbe Hend Hover Hb. unfold retrieve_range, retrieveVals_range.
  destruct (has_slash name); [reflexivity|].
  replace (wrap32 begin) with begin
    by (unfold wrap32; rewrite Z.mod_small; lia).
  replace (wrap32 end_) with end_
    by (unfold wrap32; rewrite Z.mod_small; lia).
  unfold wrap32.
  replace (end_ + 7 * 86400) with (end_ + 7 * 86400 - 2 ^ 32 + 1 * 2 ^ 32) by lia.
  rewrite Z_mod_plus_full, Z.mod_small by lia.
  cbn [for_weeks].
  destruct (Z.ltb_spec begin (end_ + 7 * 86400 - 2 ^ 32)); [lia | reflexivity].
Qed.

(** With the bound at [2^32 - 1] and [t] a multiple of 128, [t] stays a
    multiple of 128 through the wrap-around and never reaches the bound: the
    loop does not end. *)
Lemma for_weeks_no_exit {A} (body : Z -> A -> result A) :
  (forall t s, exists s', body t s = Ok s') ->
  forall fuel t s,
    0 <= t < 2 ^ 32 -> t mod 128 = 0 ->
    for_weeks fuel body t (2 ^ 32 - 1) s = OutOfFuel.
Proof.
  intros Hbody. induction fuel as [|fuel IH]; intros t s Ht Hmod; [reflexivity|].
  cbn [for_weeks].
  assert (Hlt : t < 2 ^ 32 - 1).
  { destruct (Z.eq_dec t (2 ^ 32 - 1)) as [->|]; [discriminate Hmod | lia]. }
  destruct (Z.ltb_spec t (2 ^ 32 - 1)); [|lia].
  destruct (Hbody t s) as [s' ->]. cbn [bind].
  apply IH.
  - unfold wrap32. apply Z.mod_pos_bound. lia.
  - unfold wrap32. rewrite (Z.mod_eq (t + 7 * 86400) (2 ^ 32)) by lia.
    replace (t + 7 * 86400 - 2 ^ 32 * ((t + 7 * 86400) / 2 ^ 32))
      with (t + (4725 - 2 ^ 25 * ((t + 7 * 86400) / 2 ^ 32)) * 128) by lia.
    now rewrite Z_mod_plus_full.
Qed.

(** From [begin = 0] to [end = 2^32 - 1 - 604800] the loop of [retrieveVals]
    runs for ever. *)
Lemma visited_diverges (fuel : nat) : visited fuel 0 4294362495 = OutOfFuel.
Proof.
  unfold visited. change (wrap32 (4294362495 + 7 * 86400)) with (2 ^ 32 - 1).
  apply for_weeks_no_exit.
  - intros t s. now eexists.
  - lia.
  - reflexivity.
Qed.

(** Two weeks clear of [2^32] the loop visits one timestamp in every week
    from that of [begin] to that of [end]. *)
Lemma visited_safe (fuel : nat) (begin end_ : Z) :
  0 <= begin <= end_ -> end_ + 2 * (7 * 86400) <= 2 ^ 32 ->
  (turns begin end_ < fuel)%nat ->
  visited fuel begin end_ = Ok (steps (turns begin end_) begin)
  /\ forall w, getWeekNum begin <= w <= getWeekNum end_ ->
               In w (map getWeekNum (steps (turns begin end_) begin)).
Proof.
  intros Hbe Hend Hfuel. split.
  - unfold visited, wrap32. rewrite Z.mod_small by lia.
    rewrite (for_weeks_steps _ (fun t => [t]) (end_ + 7 * 86400)
               ltac:(lia) ltac:(reflexivity) (turns begin end_)).
    + cbn [app]. f_equal. induction (steps _ _); cbn; congruence.
    + exact Hfuel.
    + lia.
    + intros _. apply turns_last. lia.
    + apply turns_stop. lia.
  - intros w Hw. rewrite map_getWeekNum_steps. apply In_weeks_from.
    pose proof (turns_stop begin end_ ltac:(lia)).
    pose proof (getWeekNum_bounds begin). pose proof (getWeekNum_bounds end_).
    nia.
Qed.

(** ** The read paths over written directories *)

Lemma written_store_retrieve (name : string) (t v : Z) (d : directory) :
  written d -> valid_name name = true -> dot_entry name = false ->
  uint32 t -> uint32 v ->
  exists d' l,
    store name t v d = Ok d' /\ written d'
    /\ retrieve name d' = Ok l /\ In (mkDatum t v) l.
Proof.
  intros Hw Hv Hnd Ht Hval.
  destruct (healthy_conditions name d (written_healthy d Hw) Hv)
    as (Hreg & _ & _ & Hwhole).
  destruct (store_then_retrieve name t v d Hv Ht Hval (Hreg Hnd) (Hwhole t))
    as (d' & Hst & _ & l & Hret & Hin).
  exists d', l. repeat split; auto.
  exact (written_store name t v d d' Hw Hv Ht Hval Hst).
Qed.

Lemma written_retrieve_range (fuel : nat) (name : string)
    (begin end_ number : Z) (d : directory) :
  written d -> valid_name name = true ->
  0 <= begin <= end_ -> end_ + 2 * (7 * 86400) <= 2 ^ 32 ->
  (end_ - begin) / (7 * 86400) + 3 <= Z.of_nat fuel ->
  exists l,
    retrieve_range fuel name begin end_ number d = Ok l
    /\ Permutation l (filter (in_interval begin end_) (stored name d))
    /\ StronglySorted Datum_le l.
Proof.
  intros Hw Hv Hbe Hend Hfuel.
  destruct (healthy_conditions name d (written_healthy d Hw) Hv)
    as (_ & Hopen & Hweek & _).
  apply retrieve_range_exact; auto using valid_name_no_slash.
Qed.

(** ** The claims *)


(** C2.  For every name, all bounds and every directory, whatever sequence
    the range query returns is in ascending order of timestamp; and over
    regular shards and bounds [0 <= begin <= end <= 2^32 - 2*604800] it does
    return one.  The directory is arbitrary, so the order of the writes that
    made it plays no part. *)
Theorem retrieve_range_ascending (name : string) (begin end_ number : Z)
    (d : directory) :
  (forall fuel l,
     retrieve_range fuel name begin end_ number d = Ok l ->
     StronglySorted Datum_le l)
  /\ (has_slash name = false ->
      0 <= begin <= end_ -> end_ + 2 * (7 * 86400) <= 2 ^ 32 ->
      shards_openable name d = true ->
      forall fuel, (end_ - begin) / (7 * 86400) + 3 <= Z.of_nat fuel ->
      exists l, retrieve_range fuel name begin end_ number d = Ok l
                /\ StronglySorted Datum_le l).
Proof.
  split.
  - intros fuel l. apply retrieve_range_sorted.
  - intros Hslash Hbe Hend Hopen fuel Hfuel.
    destruct (retrieve_range_returns fuel name begin end_ number d)
      as (values' & Hs & _ & Hret); auto.
    eexists. split; [exact Hret|].
    now apply StronglySorted_to_Datum, StronglySorted_filter.
Qed.

(** C3, at the inputs on which the code departs from it.  The batch [store]
    tests the name for a path separator only.  For a name without one that
    [regexec] rejects, the single [store] is a no-op, while a batch of one
    record of a later week than week 0 creates the shard and writes the
    record. *)
Theorem store_batch_skips_regex (name : string) (t v : Z) :
  has_slash name = false ->
  regexec_d_preg (c_str name) = false ->
  c_str name = name ->
  uint32 t -> getWeekNum t <> 0 ->
  store name t v [] = Ok []
  /\ store_batch name [mkDatum t v] []
     = Ok [(shard_entry name t, File (encode_Val (mkVal t v)))].
Proof.
  intros Hslash Hre Hc Ht Hw. split; [apply store_rejected; now right|].
  unfold store_batch. rewrite Hslash.
  cbn [store_batch_loop timestamp value].
  destruct (Z.eqb_spec (getWeekNum t) 0); [contradiction|]. cbn [negb].
  unfold fopen_a. rewrite stat_path_makeFilename by exact Hc.
  rewrite path_entry_makeFilename by exact Hc.
  cbn [dir_lookup dir_put fwrite bind].
  repeat match goal with
         | |- context [String.eqb ?a ?b] =>
             replace (String.eqb a b) with true
               by (symmetry; apply String.eqb_eq; reflexivity)
         end.
  reflexivity.
Qed.

(** C4, at the input on which the code departs from it.  The batch [store]
    starts with [weekno = 0] and no open stream, so a batch whose first
    record is of week 0 reaches [fwrite] with a null stream: nothing is
    written to the shard of week 0. *)
Theorem store_batch_week0_null_stream (name : string) (dt : Datum)
    (rest : list Datum) (d : directory) :
  has_slash name = false ->
  0 <= timestamp dt < 7 * 86400 ->
  store_batch name (dt :: rest) d = Err NullStream.
Proof.
  intros Hslash Ht. unfold store_batch. rewrite Hslash.
  cbn [store_batch_loop].
  replace (getWeekNum (timestamp dt)) with 0
    by (unfold getWeekNum; symmetry; apply Z.div_small; lia).
  reflexivity.
Qed.

(** C5, at the inputs on which the code departs from it.  When
    [end + 604800] passes [2^32] the bound of the loop wraps to
    [end + 604800 - 2^32]; from a [begin] at or above the wrapped bound the
    loop computes no shard name at all, so not even the week of [end] is
    visited. *)
Theorem visited_none_on_overflow (fuel : nat) (begin end_ : Z) :
  0 <= begin <= end_ -> end_ < 2 ^ 32 ->
  2 ^ 32 <= end_ + 7 * 86400 ->
  end_ + 7 * 86400 - 2 ^ 32 <= begin ->
  visited (S fuel) begin end_ = Ok [].
Proof.
  intros Hbe Hend Hover Hb. unfold visited, wrap32.
  replace (end_ + 7 * 86400) with (end_ + 7 * 86400 - 2 ^ 32 + 1 * 2 ^ 32) by lia.
  rewrite Z_mod_plus_full, Z.mod_small by lia.
  cbn [for_weeks].
  destruct (Z.ltb_spec begin (end_ + 7 * 86400 - 2 ^ 32)); [lia | reflexivity].
Qed.


(** C7, as amended.  For every name that contains a path separator the
    range query returns the empty sequence, without an error, for all bounds
    and all directories. *)
Theorem retrieve_range_slash_empty (fuel : nat) (name : string)
    (begin end_ number : Z) (d : directory) :
  has_slash name = true ->
  retrieve_range fuel name begin end_ number d = Ok [].
Proof.
  intros H. unfold retrieve_range, retrieveVals_range. now rewrite H.
Qed.

(** C8.  The [number] parameter of the range query has no effect: any two
    values of it give the same outcome; and where the range query is exact
    (the bounds and shards of C1) it returns all the stored records of the
    range, however many they are and whatever [number] is. *)
Theorem retrieve_range_ignores_number (fuel : nat) (name : string)
    (begin end_ : Z) (d : directory) :
  (forall n1 n2,
     retrieve_range fuel name begin end_ n1 d
     = retrieve_range fuel name begin end_ n2 d)
  /\ (has_slash name = false ->
      0 <= begin <= end_ -> end_ + 2 * (7 * 86400) <= 2 ^ 32 ->
      shards_openable name d = true ->
      shards_in_week name d = true ->
      (end_ - begin) / (7 * 86400) + 3 <= Z.of_nat fuel ->
      forall number,
      exists l,
        retrieve_range fuel name begin end_ number d = Ok l
        /\ List.length l
           = List.length (filter (in_interval begin end_) (stored name d))).
Proof.
  split; [reflexivity|].
  intros Hslash Hbe Hend Hopen Hweek Hfuel number.
  destruct (retrieve_range_exact fuel name begin end_ number d)
    as (l & Hret & Hperm & _); auto.
  exists l. split; [exact Hret|]. now apply Permutation_length.
Qed.




(** * Further properties of the engine *)

(** ** Shard files *)






(** ** Names with a path separator on the unranged read path *)

Lemma has_slash_app (a b : string) :
  has_slash (a ++ b)%string = has_slash a || has_slash b.
Proof.
  induction a as [|c a IH]; [reflexivity|].
  cbn [append has_slash]. rewrite IH. apply orb_assoc.
Qed.

Lemma prefix_split (a f : string) :
  String.prefix a f = true -> exists r, f = (a ++ r)%string.
Proof.
  revert f. induction a as [|c a IH]; intros f H.
  - now exists f.
  - destruct f as [|c' f]; [discriminate|]. cbn [String.prefix] in H.
    destruct (ascii_dec c c') as [<-|]; [|discriminate].
    destruct (IH f H) as [r ->]. now exists r.
Qed.

Lemma selects_slash (name f : string) :
  has_slash name = true -> selects name f = true -> has_slash f = true.
Proof.
  intros Hs Hsel. unfold selects in Hsel. apply orb_prop in Hsel as [H|H].
  - apply prefix_split in H as [r ->].
    now rewrite !has_slash_app, Hs.
  - apply String.eqb_eq in H. now subst.
Qed.

(** X3.  [retrieve(name)] does not test the name for a path separator, yet
    over a listing whose entries have none in their names (as those of a
    directory have) it opens no file for such a name and returns the empty
    sequence. *)
Theorem retrieve_slash_empty (name : string) (d : directory) :
  has_slash name = true ->
  Forall (fun f => has_slash f = false) (readdir d) ->
  retrieve name d = Ok [].
Proof.
  intros Hs Hd. unfold retrieve, retrieveVals.
  replace (filter (selects name) (readdir d)) with (@nil string);
    [reflexivity|].
  symmetry. apply filter_none. eapply Forall_impl; [|exact Hd].
  intros f Hf. cbn beta in Hf. destruct (selects name f) eqn:E; auto.
  apply (selects_slash name f Hs) in E. congruence.
Qed.

(** ** What one [store] does *)

Lemma store_target_directory (name : string) (t v : Z) (d : directory) :
  valid_name name = true ->
  regular (makeFilename name t) d = false ->
  store name t v d
  = Err (UnixDie ("Opening '" ++ makeFilename name t ++ "'")%string).
Proof.
  intros Hv Hreg. unfold store.
  rewrite (valid_name_no_slash _ Hv), (valid_name_regexec _ Hv). cbn [negb].
  unfold fopen_a. unfold regular in Hreg.
  destruct (stat_path (makeFilename name t) d) as [[c|sz]|];
    try discriminate. reflexivity.
Qed.

(** X4.  A [store] under a valid name over a target that is absent or a
    regular file goes through, appends the eight bytes of the record to the
    shard of the week of the timestamp, and leaves the bytes of every other
    entry as they were; the listing gains that shard at most. *)
Theorem store_appends_one_record (name : string) (t v : Z) (d : directory) :
  valid_name name = true ->
  regular (makeFilename name t) d = true ->
  exists d',
    store name t v d = Ok d'
    /\ (forall k,
          file_content k d'
          = file_content k d
            ++ (if String.eqb (shard_entry name t) k
                then encode_Val (mkVal t v) else []))
    /\ (forall k, In k (readdir d') <->
                  k = shard_entry name t \/ In k (readdir d)).
Proof.
  intros Hv Hreg.
  destruct (store_valid name t v d Hv Hreg) as (d' & Hst & Hk & Hother & Hdir).
  exists d'. split; [exact Hst|]. split; [|exact Hdir].
  intros k. unfold shard_entry.
  destruct (String.eqb_spec (name ++ "." ++ to_string (getWeekNum t)) k)
    as [<-|Hne].
  - unfold file_content at 1. rewrite Hk. unfold file_content.
    now destruct (dir_lookup _ d) as [[c|sz]|].
  - unfold file_content. rewrite Hother by congruence.
    now rewrite app_nil_r.
Qed.

(** ** Shard names *)

Lemma append_cancel_l (a b c : string) :
  (a ++ b)%string = (a ++ c)%string -> b = c.
Proof.
  induction a as [|x a IH]; cbn [append]; [auto|].
  intros H. injection H as H. auto.
Qed.

(** X6.  [makeFilename] gives two timestamps of a name the same path exactly
    when they are of the same week, and never gives two names the same path:
    the path determines the name and the week number. *)
Theorem makeFilename_injective (name name' : string) (t t' : Z) :
  0 <= t -> 0 <= t' ->
  makeFilename name t = makeFilename name' t' <->
  name = name' /\ getWeekNum t = getWeekNum t'.
Proof.
  intros Ht Ht'. split.
  - unfold makeFilename. intros H.
    apply append_cancel_l in H. cbn [append] in H. injection H as H.
    apply makeFilename_inj_week in H; auto using getWeekNum_nonneg.
  - intros [-> Hw]. unfold makeFilename. now rewrite Hw.
Qed.

(** ** Writes stay in the root *)

Lemma has_slash_c_str (s : string) :
  has_slash s = false -> has_slash (c_str s) = false.
Proof.
  induction s as [|c s IH]; [reflexivity|]. cbn [has_slash c_str].
  intros H. apply orb_false_elim in H as [Hc Hs].
  destruct (Ascii.eqb c NUL); [reflexivity|].
  cbn [has_slash]. now rewrite Hc, IH.
Qed.

Lemma has_slash_digits (u : Decimal.uint) :
  has_slash (NilEmpty.string_of_uint u) = false.
Proof. induction u; simpl; auto. Qed.

Lemma has_slash_path_entry (name : string) (t : Z) :
  has_slash name = false ->
  has_slash (path_entry (makeFilename name t)) = false.
Proof.
  intros H. unfold makeFilename. rewrite path_entry_root.
  apply has_slash_c_str. rewrite has_slash_app, H. cbn.
  rewrite to_string_digits. apply has_slash_digits.
Qed.

Lemma fopen_a_entries (path : string) (d d1 : directory) (fp : string) :
  fopen_a path d = Some (fp, d1) ->
  fp = path_entry path
  /\ (forall k, In k (readdir d1) -> k = path_entry path \/ In k (readdir d))
  /\ In fp (readdir d1).
Proof.
  unfold fopen_a, stat_path.
  destruct (path_entry path) as [|a r] eqn:E; [discriminate|].
  destruct (dir_lookup (String a r) d) as [[c|sz]|] eqn:L; try discriminate;
    intros H; injection H as <- <-; split; auto; split.
  - auto.
  - eapply dir_lookup_In; eassumption.
  - intros k Hk. now apply In_readdir_put in Hk.
  - apply In_readdir_put. now left.
Qed.

Lemma fwrite_entries (bs : list byte) (fp : string) (d d2 : directory) :
  In fp (readdir d) ->
  fwrite bs (Some fp) d = Ok d2 ->
  (forall k, In k (readdir d2) <-> In k (readdir d)).
Proof.
  intros Hin. cbn [fwrite].
  destruct (dir_lookup fp d) as [[c|sz]|]; intros H; injection H as <-;
    try tauto.
  intros k. rewrite In_readdir_put. intuition (subst; auto).
Qed.

Lemma store_batch_loop_entries (name : string) :
  has_slash name = false ->
  forall data weekno fname fp d d',
    match fp with Some k => In k (readdir d) | None => True end ->
    store_batch_loop name data weekno fname fp d = Ok d' ->
    forall k, In k (readdir d') -> In k (readdir d) \/ has_slash k = false.
Proof.
  intros Hs. induction data as [|dt rest IH]; intros weekno fname fp d d' Hfp Hrun k Hk.
  - injection Hrun as <-. now left.
  - cbn [store_batch_loop] in Hrun.
    destruct (negb (getWeekNum (timestamp dt) =? weekno)).
    + destruct (fopen_a (makeFilename name (timestamp dt)) d)
        as [[fp1 d1]|] eqn:Hopen; [|discriminate].
      destruct (fopen_a_entries _ _ _ _ Hopen) as (-> & Hd1 & Hin1).
      destruct (fwrite _ (Some _) d1) as [d2| |] eqn:Hw; try discriminate.
      cbn [bind] in Hrun.
      pose proof (fwrite_entries _ _ _ _ Hin1 Hw) as Hd2.
      destruct (IH _ _ (Some (path_entry (makeFilename name (timestamp dt))))
                  d2 d' (proj2 (Hd2 _) Hin1) Hrun k Hk) as [H|H]; auto.
      apply Hd2 in H. destruct (Hd1 k H) as [->|H']; auto.
      right. now apply has_slash_path_entry.
    + destruct fp as [fp0|]; [|discriminate].
      destruct (fwrite _ (Some fp0) d) as [d2| |] eqn:Hw; try discriminate.
      cbn [bind] in Hrun.
      pose proof (fwrite_entries _ _ _ _ Hfp Hw) as Hd2.
      destruct (IH _ _ (Some fp0) d2 d' (proj2 (Hd2 _) Hfp) Hrun k Hk)
        as [H|H]; auto.
      left. now apply Hd2.
Qed.

(** X7.  Neither [store] makes an entry with a path separator in its name,
    whatever the name, the records and the directory: every entry of the
    listing after a write that went through was there before or has a name
    free of separators. *)
Theorem writes_stay_in_root (name : string) (d : directory) :
  (forall t v d', store name t v d = Ok d' ->
     forall k, In k (readdir d') -> In k (readdir d) \/ has_slash k = false)
  /\ (forall data d', store_batch name data d = Ok d' ->
        forall k, In k (readdir d') -> In k (readdir d) \/ has_slash k = false).
Proof.
  split.
  - intros t v d'. unfold store.
    destruct (has_slash name) eqn:Hs; [intros H; injection H as <-; auto|].
    destruct (negb (regexec_d_preg (c_str name)));
      [intros H; injection H as <-; auto|].
    destruct (fopen_a (makeFilename name t) d) as [[fp d1]|] eqn:Hopen;
      [|discriminate].
    destruct (fopen_a_entries _ _ _ _ Hopen) as (-> & Hd1 & Hin1).
    intros Hw k Hk. apply (fwrite_entries _ _ _ _ Hin1 Hw) in Hk.
    destruct (Hd1 k Hk) as [->|H]; auto.
    right. now apply has_slash_path_entry.
  - intros data d'. unfold store_batch.
    destruct (has_slash name) eqn:Hs; [intros H; injection H as <-; auto|].
    now apply store_batch_loop_entries.
Qed.

(** ** The batch [store] against the single one *)

(** X8.  For a name without a path separator and with no NUL, a batch that
    does not begin in week 0, over targets that are absent or regular
    files: the batch [store] goes through and every record ends up in the
    shard of the week of its own timestamp, after the bytes that were there
    and in the order of the batch, whichever way the weeks alternate. *)
Theorem store_batch_own_week (name : string) (data : list Datum)
    (d : directory) :
  has_slash name = false -> c_str name = name ->
  match data with
  | [] => True
  | dt :: _ => getWeekNum (timestamp dt) <> 0
  end ->
  (forall dt, In dt data ->
              regular (makeFilename name (timestamp dt)) d = true) ->
  exists d',
    store_batch name data d = Ok d'
    /\ forall k, file_content k d' = file_content k d ++ batch_bytes name k data.
Proof. apply store_batch_lands. Qed.

Lemma fopen_a_file (path : string) (d d1 : directory) (fp : string) :
  fopen_a path d = Some (fp, d1) ->
  fp = path_entry path /\ exists c, dir_lookup fp d1 = Some (File c).
Proof.
  unfold fopen_a, stat_path.
  destruct (path_entry path) as [|a r] eqn:E; [discriminate|].
  destruct (dir_lookup (String a r) d) as [[c|sz]|] eqn:L; try discriminate;
    intros H; injection H as <- <-; split; auto.
  - eauto.
  - eexists. apply dir_lookup_put_eq.
Qed.

Lemma fwrite_keeps_open (bs : list byte) (fp : string) (d : directory) :
  (exists c, dir_lookup fp d = Some (File c)) ->
  exists d2, fwrite bs (Some fp) d = Ok d2
             /\ exists c, dir_lookup fp d2 = Some (File c).
Proof.
  intros [c E]. cbn [fwrite]. rewrite E. eexists. split; [reflexivity|].
  eexists. apply dir_lookup_put_eq.
Qed.

Lemma store_batch_loop_each (name : string) :
  valid_name name = true ->
  forall (data : list Datum) (weekno : Z) (fname : string) (fp : option FILE)
         (d : directory),
    ((fp = Some (name ++ "." ++ to_string weekno)%string
      /\ exists c, dir_lookup (name ++ "." ++ to_string weekno)%string d
                   = Some (File c))
     \/ match data with
        | [] => True
        | dt :: _ => getWeekNum (timestamp dt) <> weekno
        end) ->
    store_batch_loop name data weekno fname fp d = store_each name data d.
Proof.
  intros Hv. pose proof (valid_name_c_str _ Hv) as Hc.
  induction data as [|dt rest IH]; intros weekno fname fp d Hinv; [reflexivity|].
  cbn [store_batch_loop store_each]. unfold store at 1.
  rewrite (valid_name_no_slash _ Hv), (valid_name_regexec _ Hv). cbn [negb].
  destruct (Z.eqb_spec (getWeekNum (timestamp dt)) weekno) as [Heq|Hne];
    cbn [negb].
  - destruct Hinv as [[-> Hopen]|Hinv]; [|contradiction].
    unfold fopen_a. rewrite stat_path_makeFilename by exact Hc.
    rewrite path_entry_makeFilename by exact Hc. rewrite Heq.
    destruct Hopen as [c E]. rewrite E.
    destruct (fwrite_keeps_open
                (encode_Val (mkVal (timestamp dt) (value dt)))
                (name ++ "." ++ to_string weekno)%string d
                (ex_intro _ c E)) as (d2 & -> & Hopen2).
    cbn [bind]. apply IH. left. now split.
  - destruct (fopen_a (makeFilename name (timestamp dt)) d)
      as [[fp1 d1]|] eqn:Hopen; [|reflexivity].
    destruct (fopen_a_file _ _ _ _ Hopen) as [-> Hfile].
    destruct (fwrite_keeps_open
                (encode_Val (mkVal (timestamp dt) (value dt))) _ d1 Hfile)
      as (d2 & -> & Hopen2).
    cbn [bind]. apply IH. left.
    rewrite path_entry_makeFilename in * by exact Hc. now split.
Qed.

(** X9.  Under a valid name, a batch that does not begin in week 0 has the
    outcome of the single [store] called on its records one after the
    other: the same directory when all goes through, the same failure when
    a target is a directory. *)
Theorem store_batch_as_single_stores (name : string) (data : list Datum)
    (d : directory) :
  valid_name name = true ->
  match data with
  | [] => True
  | dt :: _ => getWeekNum (timestamp dt) <> 0
  end ->
  store_batch name data d = store_each name data d.
Proof.
  intros Hv Hfirst. unfold store_batch.
  rewrite (valid_name_no_slash _ Hv).
  apply store_batch_loop_each; auto.
Qed.

(** ** What [getMetrics] reports *)

Lemma cut_last_dot_none (r : string) :
  cut_last_dot r = None <-> has_dot r = false.
Proof.
  induction r as [|c r IH]; cbn [cut_last_dot has_dot]; [tauto|].
  destruct (cut_last_dot r) as [p|].
  - split; [discriminate|]. intros H. apply orb_false_elim in H as [_ H].
    apply IH in H. discriminate.
  - destruct (Ascii.eqb c "."); cbn [orb].
    + split; discriminate.
    + split; intros _; [now apply IH | reflexivity].
Qed.

Lemma cut_last_dot_some (r p : string) :
  cut_last_dot r = Some p ->
  exists s, r = (p ++ "." ++ s)%string /\ has_dot s = false.
Proof.
  revert p. induction r as [|c r IH]; intros p; cbn [cut_last_dot];
    [discriminate|].
  destruct (cut_last_dot r) as [q|] eqn:E.
  - intros H. injection H as <-. destruct (IH q eq_refl) as (s & -> & Hs).
    now exists s.
  - destruct (Ascii.eqb_spec c ".") as [->|]; [|discriminate].
    intros H. injection H as <-. exists r. split; [reflexivity|].
    now apply cut_last_dot_none.
Qed.

Lemma cut_last_dot_append (p s : string) :
  has_dot s = false -> cut_last_dot (p ++ "." ++ s)%string = Some p.
Proof.
  intros Hs. induction p as [|c p IH].
  - cbn [append cut_last_dot]. apply cut_last_dot_none in Hs.
    now rewrite Hs.
  - cbn [append cut_last_dot]. cbn [append] in IH. now rewrite IH.
Qed.

Lemma In_insert_string_iff (m s : string) (l : list string) :
  In m (insert_string s l) <-> m = s \/ In m l.
Proof.
  induction l as [|x l IH]; cbn [insert_string In].
  - intuition.
  - destruct (String.ltb x s); cbn [In]; rewrite ?IH; intuition.
Qed.

Lemma In_sort_strings_iff (m : string) (l : list string) :
  In m (sort_strings l) <-> In m l.
Proof.
  induction l as [|x l IH]; cbn [sort_strings fold_right In]; [tauto|].
  fold (sort_strings l). rewrite In_insert_string_iff, IH. intuition.
Qed.

Lemma In_unique_iff (m : string) (l : list string) :
  In m (unique l) <-> In m l.
Proof.
  split; [apply In_unique|].
  induction l as [|x l IH]; cbn [unique]; auto.
  destruct l as [|y l']; auto.
  destruct (String.eqb_spec x y) as [->|Hne].
  - intros [->|Hin]; apply IH; [now left | exact Hin].
  - intros [->|Hin]; [now left | right; now apply IH].
Qed.

Lemma getMetrics_reports (d : directory) (m s : string) :
  m <> EmptyString -> String.prefix "." m = false ->
  has_dot s = false -> In (m ++ "." ++ s)%string (readdir d) ->
  In m (getMetrics d).
Proof.
  intros Hne Hdot Hs Hin.
  unfold getMetrics. rewrite In_unique_iff, In_sort_strings_iff, in_flat_map.
  exists (m ++ "." ++ s)%string. split; [exact Hin|].
  destruct m as [|c p]; [contradiction|].
  cbn [String.prefix] in Hdot.
  destruct (ascii_dec "." c) as [<-|Hc]; [now destruct p|].
  cbn [append]. destruct (Ascii.eqb_spec c ".") as [->|]; [contradiction|].
  cbn [negb strip_week]. change (String "." s) with ("." ++ s)%string.
  rewrite cut_last_dot_append by exact Hs. now left.
Qed.

(** X10.  [getMetrics] reports exactly the metrics [m], not empty and not
    beginning with a dot, for which the listing has an entry [m.s] whose
    last part [s] holds no further dot: what comes after the last dot of an
    entry is dropped, whether it is a week number or not, and an entry with
    no dot after its first character reports nothing. *)
Theorem getMetrics_exact (d : directory) (m : string) :
  In m (getMetrics d) <->
  m <> EmptyString /\ String.prefix "." m = false
  /\ exists s, has_dot s = false /\ In (m ++ "." ++ s)%string (readdir d).
Proof.
  split.
  - unfold getMetrics.
    rewrite In_unique_iff, In_sort_strings_iff, in_flat_map.
    intros (d_name & Hin & Hm).
    destruct d_name as [|c r]; [contradiction|].
    destruct (Ascii.eqb_spec c ".") as [|Hc]; [contradiction|].
    cbn [negb strip_week] in Hm.
    destruct (cut_last_dot r) as [p|] eqn:E; [|contradiction].
    destruct Hm as [<-|[]].
    destruct (cut_last_dot_some r p E) as (s & -> & Hs).
    split; [discriminate|]. split.
    + cbn [String.prefix]. destruct (ascii_dec "." c); congruence.
    + now exists s.
  - intros (Hne & Hdot & s & Hs & Hin).
    apply (getMetrics_reports d m s Hne Hdot Hs Hin).
Qed.

(** X11.  After a [store] that went through under a valid name that does
    not begin with a dot, [getMetrics] reports the name. *)
Theorem store_lists_metric (name : string) (t v : Z) (d d' : directory) :
  valid_name name = true ->
  String.prefix "." name = false ->
  store name t v d = Ok d' ->
  In name (getMetrics d').
Proof.
  intros Hv Hdot Hst.
  apply (getMetrics_reports d' name (to_string (getWeekNum t))).
  - intros ->. discriminate Hv.
  - exact Hdot.
  - apply has_dot_to_string.
  - destruct (regular (makeFilename name t) d) eqn:E.
    + destruct (store_valid name t v d Hv E) as (d1 & Hst1 & _ & _ & Hdir).
      rewrite Hst in Hst1. injection Hst1 as <-. apply Hdir. now left.
    + rewrite (store_target_directory name t v d Hv E) in Hst. discriminate.
Qed.

(** ** The order of the metrics *)

Lemma string_lt_trans : Relations_1.Transitive string_lt.
Proof. intros a b c. unfold string_lt. apply String.ltb_trans. Qed.

Lemma string_lt_irrefl (x : string) : ~ string_lt x x.
Proof. unfold string_lt. now rewrite String.ltb_antirefl. Qed.

Lemma string_not_lt_le (x s : string) :
  String.ltb x s = false -> string_le s x.
Proof. auto. Qed.

Lemma string_lt_le (x s : string) : String.ltb x s = true -> string_le x s.
Proof.
  unfold string_le. intros H. destruct (String.ltb s x) eqn:E; auto.
  pose proof (String.ltb_trans _ _ _ H E) as Hxx.
  now rewrite String.ltb_antirefl in Hxx.
Qed.

Lemma string_le_neq_lt (x y : string) :
  string_le x y -> x <> y -> string_lt x y.
Proof.
  unfold string_le, string_lt. intros Hle Hne.
  destruct (String.ltb x y) eqn:E; auto.
  elim Hne. now apply String.ltb_total.
Qed.

Lemma HdRel_insert_string (x s : string) (l : list string) :
  HdRel string_le x l -> string_le x s ->
  HdRel string_le x (insert_string s l).
Proof.
  intros Hl Hs. destruct l as [|y l]; cbn [insert_string].
  - now constructor.
  - apply HdRel_inv in Hl. destruct (String.ltb y s); now constructor.
Qed.

Lemma insert_string_sorted (s : string) (l : list string) :
  Sorted string_le l -> Sorted string_le (insert_string s l).
Proof.
  induction 1 as [|x l Hl IH Hx]; cbn [insert_string].
  - repeat constructor.
  - destruct (String.ltb x s) eqn:E.
    + constructor; [exact IH|].
      apply HdRel_insert_string; [exact Hx | now apply string_lt_le].
    + constructor; [now constructor|].
      constructor. now apply string_not_lt_le.
Qed.

Lemma sort_strings_sorted (l : list string) : Sorted string_le (sort_strings l).
Proof.
  induction l as [|x l IH]; cbn [sort_strings fold_right]; [constructor|].
  now apply insert_string_sorted.
Qed.

Lemma unique_head (r : list string) : forall x,
  exists t, unique (x :: r) = x :: t.
Proof.
  induction r as [|y r IH]; intros x; cbn [unique]; [now exists []|].
  destruct (String.eqb_spec x y) as [->|Hne].
  - apply IH.
  - eexists. reflexivity.
Qed.

Lemma unique_sorted (l : list string) :
  Sorted string_le l -> Sorted string_lt (unique l).
Proof.
  induction 1 as [|x l Hl IH Hx]; [constructor|].
  destruct l as [|y l']; [repeat constructor|].
  apply HdRel_inv in Hx.
  change (unique (x :: y :: l'))
    with (if String.eqb x y then unique (y :: l') else x :: unique (y :: l')).
  destruct (String.eqb_spec x y) as [->|Hne]; [exact IH|].
  constructor; [exact IH|].
  destruct (unique_head l' y) as [t ->]. constructor.
  now apply string_le_neq_lt.
Qed.

(** X12.  The sequence [getMetrics] returns is strictly ascending in the
    order of [std::string]: it is sorted and no metric is reported twice,
    however many shards a metric has and whatever the order of the
    listing. *)
Theorem getMetrics_ascending (d : directory) :
  StronglySorted string_lt (getMetrics d) /\ NoDup (getMetrics d).
Proof.
  assert (Hs : StronglySorted string_lt (getMetrics d)).
  { apply Sorted_StronglySorted; [exact string_lt_trans|].
    unfold getMetrics. apply unique_sorted, sort_strings_sorted. }
  split; [exact Hs|].
  induction Hs as [|x l Hl IH Hx]; constructor; auto.
  intros Hin. rewrite Forall_forall in Hx.
  exact (string_lt_irrefl x (Hx x Hin)).
Qed.

(** ** The range query on other bounds *)

Lemma retrieveVals_range_sorted (fuel : nat) (name : string) (b e : Z)
    (d : directory) (values : list Val) :
  retrieveVals_range fuel name b e d = Ok values -> StronglySorted le_ts values.
Proof.
  unfold retrieveVals_range. destruct (has_slash name).
  - intros H. injection H as <-. constructor.
  - destruct (for_weeks _ _ _ _ _) as [vs| |]; cbn [bind]; try discriminate.
    destruct (sort_if_needed vs) as [Hs _]. cbv zeta in Hs.
    destruct (negb (is_sorted vs)); intros H; injection H as <-; exact Hs.
Qed.

(** X13.  With [end <= begin] the range query never returns a record: it
    returns the empty sequence, or, when a shard it read holds a record
    with [end <= timestamp < begin], it fails with [std::length_error] on
    the [reserve] of a negative count. *)
Theorem retrieve_range_reversed (fuel : nat) (name : string)
    (begin end_ number : Z) (d : directory) :
  end_ <= begin ->
  (forall l, retrieve_range fuel name begin end_ number d = Ok l -> l = [])
  /\ (forall values x,
        retrieveVals_range fuel name (wrap32 begin) (wrap32 end_) d = Ok values ->
        In x values -> end_ <= val_timestamp x < begin ->
        retrieve_range fuel name begin end_ number d = Err LengthError).
Proof.
  intros Hbe. unfold retrieve_range. split.
  - intros l.
    destruct (retrieveVals_range fuel name _ _ d) as [values| |] eqn:E;
      cbn [bind]; try discriminate.
    pose proof (retrieveVals_range_sorted _ _ _ _ _ _ E) as Hs.
    destruct values as [|v0 r0] eqn:Ev; [intros H; now injection H|].
    rewrite <- Ev in *.
    destruct (lower_bound_spec values begin Hs) as (Hb & Hblo & Hbhi).
    destruct (lower_bound_spec values end_ Hs) as (He & Helo & Hehi).
    destruct (Nat.ltb_spec (lower_bound values end_) (lower_bound values begin))
      as [|Hge]; [discriminate|].
    intros Hl. injection Hl as <-.
    assert (Heq : lower_bound values end_ = lower_bound values begin).
    { destruct (Nat.eq_dec (lower_bound values end_) (lower_bound values begin))
        as [|Hne]; auto.
      specialize (Helo (lower_bound values begin) ltac:(lia)).
      specialize (Hbhi (lower_bound values begin) ltac:(lia)). lia. }
    unfold slice. rewrite Heq, Nat.sub_diag. reflexivity.
  - intros values x E Hin Hx. rewrite E. cbn [bind].
    pose proof (retrieveVals_range_sorted _ _ _ _ _ _ E) as Hs.
    destruct values as [|v0 r0] eqn:Ev; [contradiction|].
    rewrite <- Ev in *.
    destruct (lower_bound_spec values begin Hs) as (Hb & Hblo & Hbhi).
    destruct (lower_bound_spec values end_ Hs) as (He & Helo & Hehi).
    destruct (In_nth values x (mkVal 0 0) Hin) as (i & Hi & Hnth).
    destruct (Nat.ltb_spec (lower_bound values end_) (lower_bound values begin))
      as [|Hge]; [reflexivity|].
    exfalso.
    destruct (Nat.lt_ge_cases i (lower_bound values end_)) as [Hlt|Hle].
    + specialize (Helo i Hlt). rewrite Hnth in Helo. lia.
    + specialize (Hbhi i ltac:(lia)). rewrite Hnth in Hbhi. lia.
Qed.

Lemma for_weeks_never_ends {A} (body : Z -> A -> result A) (bound r : Z) :
  (forall t s, 0 <= t < 2 ^ 32 -> exists s', body t s = Ok s') ->
  2 ^ 32 - 128 + r < bound ->
  forall fuel t s,
    0 <= t < 2 ^ 32 -> t mod 128 = r ->
    for_weeks fuel body t bound s = OutOfFuel.
Proof.
  intros Hbody Hbound. induction fuel as [|fuel IH]; intros t s Ht Hmod;
    [reflexivity|].
  cbn [for_weeks].
  assert (Hlt : t < bound).
  { pose proof (Z.div_mod t 128 ltac:(lia)) as Hdm.
    assert (t / 128 < 2 ^ 25) by (apply Z.div_lt_upper_bound; lia).
    lia. }
  destruct (Z.ltb_spec t bound); [|lia].
  destruct (Hbody t s Ht) as [s' ->]. cbn [bind].
  apply IH.
  - unfold wrap32. apply Z.mod_pos_bound. lia.
  - unfold wrap32. rewrite (Z.mod_eq (t + 7 * 86400) (2 ^ 32)) by lia.
    replace (t + 7 * 86400 - 2 ^ 32 * ((t + 7 * 86400) / 2 ^ 32))
      with (t + (4725 - 2 ^ 25 * ((t + 7 * 86400) / 2 ^ 32)) * 128) by lia.
    now rewrite Z_mod_plus_full.
Qed.

(** X14.  The loop of [retrieveVals] steps by a multiple of 128, so it can
    only stop at a [t] that is [begin] modulo 128.  When none lies between
    [end + 604800] and [2^32], the loop wraps around for ever: over shards
    that can be opened, the range query does not return, however much fuel
    it is given. *)
Theorem retrieve_range_never_returns (name : string) (begin end_ number : Z)
    (d : directory) :
  has_slash name = false ->
  shards_openable name d = true ->
  0 <= begin < 2 ^ 32 -> 0 <= end_ ->
  end_ + 7 * 86400 < 2 ^ 32 ->
  2 ^ 32 - 128 + begin mod 128 < end_ + 7 * 86400 ->
  forall fuel, retrieve_range fuel name begin end_ number d = OutOfFuel.
Proof.
  intros Hslash Hopen Hb He Hend Hgap fuel.
  unfold retrieve_range.
  replace (wrap32 begin) with begin
    by (unfold wrap32; rewrite Z.mod_small; lia).
  replace (wrap32 end_) with end_
    by (unfold wrap32; rewrite Z.mod_small; lia).
  unfold retrieveVals_range. rewrite Hslash.
  replace (wrap32 (end_ + 7 * 86400)) with (end_ + 7 * 86400)
    by (unfold wrap32; rewrite Z.mod_small; lia).
  rewrite (for_weeks_never_ends _ (end_ + 7 * 86400) (begin mod 128));
    auto.
  intros t s Ht. eexists. apply retrieveAllFromFile_regular.
  rewrite makeFilename_week.
  unfold shards_openable in Hopen. rewrite forallb_forall in Hopen.
  now apply Hopen, week_of_uint32.
Qed.

(** X15.  For bounds [0 <= begin <= end <= 2^32 - 2*604800] the loop of
    [retrieveVals] ends; it computes a shard name for consecutive weeks
    from the week of [begin] on, each once, the week of [end] among them,
    and for no more than [(end - begin) / 604800 + 2] weeks. *)
Theorem visited_consecutive_weeks (fuel : nat) (begin end_ : Z) :
  0 <= begin <= end_ -> end_ + 2 * (7 * 86400) <= 2 ^ 32 ->
  (end_ - begin) / (7 * 86400) + 3 <= Z.of_nat fuel ->
  exists ts,
    visited fuel begin end_ = Ok ts
    /\ map getWeekNum ts = weeks_from (List.length ts) (getWeekNum begin)
    /\ (forall w, getWeekNum begin <= w <= getWeekNum end_ ->
                  In w (map getWeekNum ts))
    /\ Z.of_nat (List.length ts) <= (end_ - begin) / (7 * 86400) + 2.
Proof.
  intros Hbe Hend Hfuel.
  pose proof (turns_bound begin end_ ltac:(lia)) as Hturns.
  destruct (visited_safe fuel begin end_ Hbe Hend ltac:(lia)) as [Hv Hw].
  exists (steps (turns begin end_) begin).
  assert (Hlen : forall n t, List.length (steps n t) = n).
  { induction n; intros; cbn [steps List.length]; auto. }
  rewrite Hlen. repeat split; auto.
  apply map_getWeekNum_steps.
Qed.

(** ** The two read paths side by side *)




Lemma stored_in_listing (name : string) (d : directory) (x : Datum) :
  c_str name = name ->
  shards_regular name d = true ->
  In x (stored name d) ->
  In x (map to_Datum
          (flat_map (fun f => path_records (d_root ++ "/" ++ f)%string d)
                    (filter (selects name) (readdir d)))).
Proof.
  intros Hc Hreg Hx. unfold stored in Hx.
  apply in_map_iff in Hx as (v & <- & Hv').
  apply in_flat_map in Hv' as (w & _ & Hw).
  apply (retrieve_shard_included name name (w * (7 * 86400))); auto.
  intros s'. apply selects_shard.
Qed.


(** ** Directories made by [store] *)

(** X17.  In a directory that valid single [store]s made of an empty
    root, every entry but the directories [.] and [..] is a regular file of
    a whole number of records; for every valid name each shard names no
    directory and holds whole records of its own week only, so that [store]
    and the ranged read do not die on it; and for every valid name but [.]
    and [..] every entry that [retrieve(name)] picks is a regular file. *)
Theorem written_directory_well_formed (d : directory) :
  written d ->
  (forall k e, dir_lookup k d = Some e ->
     (dot_entry k = true /\ exists sz, e = Dir sz)
     \/ exists c, e = File c /\ Z.of_nat (List.length c) mod sizeof_Val = 0)
  /\ (forall name, valid_name name = true ->
        shards_openable name d = true
        /\ shards_in_week name d = true
        /\ (forall t, whole_records (makeFilename name t) d = true)
        /\ (dot_entry name = false -> shards_regular name d = true)).
Proof.
  intros Hw. pose proof (written_healthy d Hw) as Hd. split.
  - intros k e E.
    destruct (Hd k e E) as (_ & _ & [Hdot|(c & -> & Hlen & _)]); eauto.
  - intros name Hv.
    destruct (healthy_conditions name d Hd Hv) as (Hreg & Hopen & Hweek & Hwh).
    split; [exact Hopen|]. split; [exact Hweek|]. split; [exact Hwh|].
    exact Hreg.
Qed.

(** ** A history of stores and what the read paths make of it *)

Lemma flat_map_ext_in {A B} (f g : A -> list B) (l : list A) :
  (forall a, In a l -> f a = g a) -> flat_map f l = flat_map g l.
Proof.
  induction l as [|a l IH]; intros H; [reflexivity|].
  cbn [flat_map]. rewrite (H a) by now left.
  rewrite IH; auto. intros; apply H; now right.
Qed.

Lemma path_records_empty (path : string) (d : directory) :
  empty_root d = true -> path_records path d = [].
Proof.
  intros Hd. unfold path_records, stat_path.
  destruct (path_entry path) as [|c r]; [reflexivity|].
  destruct (dir_lookup _ d) as [e|] eqn:E; [|reflexivity].
  destruct (empty_root_lookup _ e d Hd E) as [_ [sz ->]]. reflexivity.
Qed.

Lemma stored_empty (name : string) (d : directory) :
  empty_root d = true -> stored name d = [].
Proof.
  intros Hd. unfold stored, shard_records.
  induction all_weeks as [|w l IH]; [reflexivity|].
  cbn [flat_map]. rewrite path_records_empty by exact Hd. exact IH.
Qed.

Lemma shard_records_lookup (name : string) (w : Z) (d : directory) :
  c_str name = name ->
  shard_records name w d
  = match dir_lookup (name ++ "." ++ to_string w)%string d with
    | Some e => fread e (filesize e / sizeof_Val)
    | None => []
    end.
Proof.
  intros Hc. unfold shard_records, path_records.
  rewrite stat_path_makeFilename by exact Hc. now rewrite getWeekNum_week.
Qed.

(** One [store] adds its record to what is stored under its name, and to
    nothing else. *)
Lemma stored_after_store (X name : string) (t v : Z) (d d' : directory) :
  healthy d ->
  valid_name X = true -> valid_name name = true ->
  uint32 t -> uint32 v ->
  store X t v d = Ok d' ->
  Permutation (stored name d')
              (stored name d
               ++ (if String.eqb X name then [mkDatum t v] else [])).
Proof.
  intros Hd HX Hname Ht Hval Hst.
  pose proof (valid_name_c_str _ Hname) as Hc.
  destruct (healthy_conditions X d Hd HX) as (_ & _ & _ & Hwhole).
  pose proof (healthy_target X t d Hd HX) as Htarget.
  destruct (store_valid X t v d HX Htarget) as (d1 & Hst1 & Hk & Hother & _).
  rewrite Hst in Hst1. injection Hst1 as <-.
  set (k := (X ++ "." ++ to_string (getWeekNum t))%string) in *.
  set (old := match dir_lookup k d with Some (File c) => c | _ => [] end) in *.
  assert (Hwt : 0 <= getWeekNum t < 7102).
  { unfold uint32 in Ht. pose proof (getWeekNum_bounds t). lia. }
  assert (Hsame : forall w, 0 <= w ->
            (name ++ "." ++ to_string w)%string <> k ->
            shard_records name w d' = shard_records name w d).
  { intros w Hw Hne. rewrite !shard_records_lookup by exact Hc.
    now rewrite Hother. }
  assert (Hnew : shard_records X (getWeekNum t) d'
                 = shard_records X (getWeekNum t) d ++ [mkVal t v]).
  { pose proof (valid_name_c_str _ HX) as HcX.
    rewrite !shard_records_lookup by exact HcX. fold k. rewrite Hk.
    specialize (Hwhole t). unfold whole_records in Hwhole.
    rewrite stat_path_makeFilename in Hwhole by exact HcX. fold k in Hwhole.
    assert (Hold : Z.of_nat (List.length old) mod sizeof_Val = 0
                   /\ match dir_lookup k d with
                      | Some e => fread e (filesize e / sizeof_Val)
                      | None => []
                      end
                      = fread (File old) (filesize (File old) / sizeof_Val)).
    { subst old. destruct (dir_lookup k d) as [e|] eqn:E.
      - destruct (healthy_shard X _ e d Hd (valid_name_not_empty _ HX)
                    (to_string_not_empty _) E) as (c & -> & Hlen & _).
        auto.
      - split; reflexivity. }
    destruct Hold as [Hlen ->]. cbn [fread filesize].
    unfold sizeof_Val in *.
    apply Z.mod_divide in Hlen; [|lia]. destruct Hlen as [q Hq].
    assert (0 <= q) by lia.
    rewrite length_app, length_encode_Val, Nat2Z.inj_add, Hq.
    change (Z.of_nat 8) with (1 * 8). rewrite <- Z.mul_add_distr_r.
    rewrite !Z.div_mul by lia.
    replace (Z.to_nat (q + 1)) with (S (Z.to_nat q)) by lia.
    apply fread_Vals_snoc; cbn [val_timestamp val_value]; auto. lia. }
  unfold stored. destruct (String.eqb_spec X name) as [->|Hne].
  - change [mkDatum t v] with (map to_Datum [mkVal t v]).
    rewrite <- map_app. apply Permutation_map.
    unfold all_weeks.
    replace (Z.to_nat 7102)
      with (Z.to_nat (getWeekNum t)
            + S (Z.to_nat 7102 - Z.to_nat (getWeekNum t) - 1))%nat by lia.
    rewrite weeks_from_app. cbn [weeks_from].
    replace (0 + Z.of_nat (Z.to_nat (getWeekNum t))) with (getWeekNum t) by lia.
    rewrite !flat_map_app. cbn [flat_map]. rewrite Hnew.
    rewrite (flat_map_ext_in (fun w => shard_records name w d')
                             (fun w => shard_records name w d)
                             (weeks_from (Z.to_nat (getWeekNum t)) 0)).
    2:{ intros w Hw. apply In_weeks_from in Hw. apply Hsame; [lia|].
        intros E. apply makeFilename_inj_week in E; lia. }
    rewrite (flat_map_ext_in (fun w => shard_records name w d')
                             (fun w => shard_records name w d)
                             (weeks_from _ (getWeekNum t + 1))).
    2:{ intros w Hw. apply In_weeks_from in Hw. apply Hsame; [lia|].
        intros E. apply makeFilename_inj_week in E; lia. }
    rewrite <- !app_assoc. apply Permutation_app_head.
    apply Permutation_app_head. apply Permutation_app_comm.
  - rewrite app_nil_r.
    rewrite (flat_map_ext_in (fun w => shard_records name w d')
                             (fun w => shard_records name w d) all_weeks);
      [reflexivity|].
    intros w Hw. apply In_all_weeks in Hw. apply Hsame; [lia|].
    intros E. apply makeFilename_inj_week in E; try lia.
    destruct E as [E _]. congruence.
Qed.

Lemma Datum_eta (dt : Datum) : mkDatum (timestamp dt) (value dt) = dt.
Proof. now destruct dt. Qed.

Lemma store_log_written (log : list (string * Datum)) :
  Forall storable log ->
  forall d, written d ->
  exists d',
    store_log log d = Ok d' /\ written d'
    /\ forall name, valid_name name = true ->
         Permutation (stored name d') (stored name d ++ logged name log).
Proof.
  induction 1 as [|[X dt] log (HX & Ht & Hval) _ IH]; intros d Hw.
  - exists d. split; [reflexivity|]. split; [exact Hw|].
    intros name _. unfold logged. cbn [filter map]. now rewrite app_nil_r.
  - cbn [fst snd] in *. cbn [store_log].
    pose proof (written_healthy d Hw) as Hd.
    pose proof (healthy_target X (timestamp dt) d Hd HX) as Htarget.
    destruct (store_valid X (timestamp dt) (value dt) d HX Htarget)
      as (d1 & Hst & _).
    rewrite Hst. cbn [bind].
    pose proof (written_store X _ _ d d1 Hw HX Ht Hval Hst) as Hw1.
    destruct (IH d1 Hw1) as (d' & Hrun & Hw' & Hperm).
    exists d'. split; [exact Hrun|]. split; [exact Hw'|].
    intros name Hname.
    eapply Permutation_trans; [apply Hperm; exact Hname|].
    unfold logged. cbn [filter fst].
    eapply Permutation_trans.
    { apply Permutation_app_tail.
      apply (stored_after_store X name (timestamp dt) (value dt) d d1); auto. }
    rewrite <- app_assoc. apply Permutation_app_head.
    destruct (String.eqb X name); cbn [map snd app]; [|reflexivity].
    now rewrite Datum_eta.
Qed.

(** X18.  A history of single [store]s under valid names, begun on an empty
    root (one that lists nothing, or nothing but the directories [.] and
    [..]), goes through; thereafter the range query under a valid name, for
    bounds [0 <= begin <= end <= 2^32 - 2*604800], returns in ascending
    order exactly the samples of the history that were stored under this
    very name with [begin <= timestamp < end], each as often as it was
    stored, whatever the order of the calls and whatever other names were
    written. *)
Theorem store_log_range_query (log : list (string * Datum))
    (d0 : directory) :
  empty_root d0 = true ->
  Forall storable log ->
  exists d,
    store_log log d0 = Ok d
    /\ forall fuel name begin end_ number,
         valid_name name = true ->
         0 <= begin <= end_ -> end_ + 2 * (7 * 86400) <= 2 ^ 32 ->
         (end_ - begin) / (7 * 86400) + 3 <= Z.of_nat fuel ->
         exists l,
           retrieve_range fuel name begin end_ number d = Ok l
           /\ Permutation l (filter (in_interval begin end_) (logged name log))
           /\ StronglySorted Datum_le l.
Proof.
  intros Hd0 Hlog.
  destruct (store_log_written log Hlog d0 (written_empty d0 Hd0))
    as (d & Hrun & Hw & Hperm).
  exists d. split; [exact Hrun|].
  intros fuel name begin end_ number Hv Hbe Hend Hfuel.
  destruct (written_retrieve_range fuel name begin end_ number d Hw Hv Hbe Hend
              Hfuel) as (l & Hret & Hl & Hs).
  exists l. split; [exact Hret|]. split; [|exact Hs].
  eapply Permutation_trans; [exact Hl|].
  apply Permutation_filter.
  specialize (Hperm name Hv).
  now rewrite (stored_empty name d0 Hd0) in Hperm.
Qed.

(** X19.  After such a history, begun on an empty root that may list the
    directories [.] and [..], [retrieve(name)] under a valid name other
    than [.] and [..] returns every sample that was stored under the
    name. *)
Theorem store_log_retrieve (log : list (string * Datum)) (d0 : directory) :
  empty_root d0 = true ->
  Forall storable log ->
  exists d,
    store_log log d0 = Ok d
    /\ forall name, valid_name name = true -> dot_entry name = false ->
         exists l, retrieve name d = Ok l
                   /\ forall x, In x (logged name log) -> In x l.
Proof.
  intros Hd0 Hlog.
  destruct (store_log_written log Hlog d0 (written_empty d0 Hd0))
    as (d & Hrun & Hw & Hperm).
  exists d. split; [exact Hrun|]. intros name Hv Hnd.
  destruct (healthy_conditions name d (written_healthy d Hw) Hv)
    as (Hreg & _).
  unfold retrieve. rewrite retrieveVals_regular by exact (Hreg Hnd).
  cbn [bind].
  eexists. split; [reflexivity|]. intros x Hx.
  apply stored_in_listing; auto using valid_name_c_str.
  apply (Permutation_in x (Permutation_sym (Hperm name Hv))).
  now rewrite (stored_empty name d0 Hd0).
Qed.

(** ** The unranged read, entry by entry *)


Lemma read_files_error (d : directory) (files : list string) (e : error) :
  fold_left (fun ret f =>
               values <- ret ;;
               retrieveAllFromFile (d_root ++ "/" ++ f)%string d values)
            files (Err e)
  = Err e.
Proof. induction files as [|f l IH]; cbn [fold_left bind]; auto. Qed.

Lemma retrieveAllFromFile_unixDie (fname : string) (d : directory)
    (values : list Val) :
  (exists r, retrieveAllFromFile fname d values = Ok r)
  \/ (exists what, retrieveAllFromFile fname d values = Err (UnixDie what)).
Proof.
  unfold retrieveAllFromFile. destruct (stat_path fname d) as [e|]; eauto.
  destruct (Z.eqb _ _); eauto.
Qed.

Lemma read_files_directory (d : directory) (g : string) (sz : Z) :
  c_str g = g -> g <> EmptyString ->
  dir_lookup g d = Some (Dir sz) -> sizeof_Val <= sz ->
  forall files acc, In g files ->
    exists what,
      fold_left (fun ret f =>
                   values <- ret ;;
                   retrieveAllFromFile (d_root ++ "/" ++ f)%string d values)
                files (Ok acc)
      = Err (UnixDie what).
Proof.
  intros Hc Hne Hdir Hsz. induction files as [|f l IH]; intros acc Hin;
    [contradiction|].
  cbn [fold_left bind].
  destruct (retrieveAllFromFile_unixDie (d_root ++ "/" ++ f)%string d acc)
    as [[r Hr]|[what Hw]].
  - rewrite Hr. destruct Hin as [->|Hin]; [|now apply IH].
    exfalso. unfold retrieveAllFromFile in Hr.
    rewrite stat_path_listed in Hr by auto. rewrite Hdir in Hr.
    cbn [filesize fread List.length] in Hr.
    unfold sizeof_Val in *.
    assert (0 < sz / 8) by (apply Z.div_str_pos; lia).
    destruct (Z.eqb_spec (Z.of_nat 0) (sz / 8)); [lia | discriminate].
  - rewrite Hw, read_files_error. eauto.
Qed.

(** X21.  When one of the entries that [retrieve(name)] picks is a
    directory of a size of eight bytes or more (as [.] and [..] are for the
    names [.] and [..]), [retrieve(name)] dies with a fatal I/O error,
    whatever the other entries hold. *)
Theorem retrieve_dies_on_directory (name g : string) (sz : Z) (d : directory) :
  c_str g = g -> g <> EmptyString ->
  selects name g = true ->
  dir_lookup g d = Some (Dir sz) -> sizeof_Val <= sz ->
  exists what, retrieve name d = Err (UnixDie what).
Proof.
  intros Hc Hne Hsel Hdir Hsz. unfold retrieve, retrieveVals.
  destruct (read_files_directory d g sz Hc Hne Hdir Hsz
              (filter (selects name) (readdir d)) [])
    as [what Hw].
  - apply filter_In. split; [|exact Hsel].
    eapply dir_lookup_In; eassumption.
  - rewrite Hw. now exists what.
Qed.

End StatStorage.

(** ** Insertion sort is one [std::sort] *)

Lemma insert_Val_perm (v : Val) (l : list Val) :
  Permutation (insert_Val v l) (v :: l).
Proof.
  induction l as [|x l IH]; cbn [insert_Val]; auto.
  destruct (val_lt x v); auto.
  eapply perm_trans; [apply perm_skip, IH | apply perm_swap].
Qed.

Lemma insertion_sort_perm (l : list Val) : Permutation (insertion_sort l) l.
Proof.
  induction l as [|x l IH]; cbn [insertion_sort fold_right]; auto.
  eapply perm_trans; [apply insert_Val_perm | now apply perm_skip].
Qed.

Lemma insert_Val_sorted (v : Val) (l : list Val) :
  StronglySorted le_ts l -> StronglySorted le_ts (insert_Val v l).
Proof.
  induction 1 as [|x l Hs IH Hall]; cbn [insert_Val].
  - repeat constructor.
  - unfold val_lt.
    destruct (Z.ltb_spec (val_timestamp x) (val_timestamp v)) as [Hlt|Hge].
    + constructor; auto.
      rewrite Forall_forall in *. intros y Hy.
      apply (Permutation_in y (insert_Val_perm v l)) in Hy as [<-|Hy].
      * unfold le_ts. lia.
      * now apply Hall.
    + constructor; [now constructor|].
      constructor; [exact Hge|].
      rewrite Forall_forall in *. intros y Hy. specialize (Hall y Hy).
      unfold le_ts in *. lia.
Qed.

Lemma insertion_sort_sorted (l : list Val) :
  StronglySorted le_ts (insertion_sort l).
Proof.
  induction l as [|x l IH]; cbn [insertion_sort fold_right].
  - constructor.
  - now apply insert_Val_sorted.
Qed.

(** ** The claims on the example root *)



(** Weeks 0 to 2 of the example root, written out of order, come back in
    order. *)
Lemma retrieve_range_ascending_witness :
  exists l,
    retrieve_range example_root example_root_size insertion_sort
                   6 "temp" 0 1814400 10 example_dir = Ok l
    /\ StronglySorted Datum_le l.
Proof.
  apply (proj2 (retrieve_range_ascending example_root example_root_size
                  insertion_sort insertion_sort_perm insertion_sort_sorted
                  "temp" 0 1814400 10 example_dir)) with (fuel := 6%nat).
  - reflexivity.
  - lia.
  - lia.
  - vm_compute; reflexivity.
  - vm_compute; discriminate.
Defined.

(** The name [a b] fails the validation; the single [store] drops it, the
    batch [store] writes its shard. *)
Lemma store_batch_skips_regex_witness :
  valid_name "a b" = false
  /\ store example_root example_root_size "a b" 604800 float_1_0 [] = Ok []
  /\ store_batch example_root example_root_size "a b"
                 [mkDatum 604800 float_1_0] []
     = Ok example_dir_a_b.
Proof.
  split; [reflexivity|].
  apply (store_batch_skips_regex example_root example_root_size
           "a b" 604800 float_1_0).
  - reflexivity.
  - reflexivity.
  - reflexivity.
  - unfold uint32; lia.
  - vm_compute; discriminate.
Defined.

(** A batch of one sample at time 0 under [cpu]. *)
Lemma store_batch_week0_null_stream_witness :
  valid_name "cpu" = true
  /\ store_batch example_root example_root_size "cpu"
                 [mkDatum 0 float_1_0] example_dir
     = Err NullStream.
Proof.
  split; [reflexivity|].
  apply (store_batch_week0_null_stream example_root example_root_size
           "cpu" (mkDatum 0 float_1_0) [] example_dir).
  - reflexivity.
  - cbn; lia.
Defined.

(** [begin = end = 2^32 - 1]: the week of [end] is week 7101, and the loop
    visits nothing. *)
Lemma visited_none_on_overflow_witness :
  getWeekNum 4294967295 = 7101
  /\ visited 1 4294967295 4294967295 = Ok [].
Proof.
  split; [reflexivity|].
  apply (visited_none_on_overflow 0 4294967295 4294967295); lia.
Defined.



(** The name [a b] fails the validation and has no path separator: the
    range query reads its shard and returns the record. *)
Lemma retrieve_range_reads_invalid_name :
  valid_name "a b" = false
  /\ retrieve_range example_root example_root_size insertion_sort
                    3 "a b" 604800 604801 10 example_dir_a_b
     = Ok [mkDatum 604800 float_1_0]
  /\ retrieve_range example_root example_root_size insertion_sort
                    3 "a b" 604800 604801 10 example_dir_a_b
     <> Ok [].
Proof.
  split; [reflexivity|]. split; [vm_compute; reflexivity|].
  vm_compute. discriminate.
Qed.

Lemma retrieve_range_slash_empty_witness :
  has_slash "../etc/passwd" = true
  /\ retrieve_range example_root example_root_size insertion_sort
                    3 "../etc/passwd" 0 604801 10 example_dir
     = Ok [].
Proof.
  split; [reflexivity|].
  apply (retrieve_range_slash_empty example_root example_root_size
           insertion_sort 3 "../etc/passwd" 0 604801 10 example_dir).
  reflexivity.
Defined.

(** With [number = 1] the range [0, 604801) of the example root still
    yields its three records. *)
Lemma retrieve_range_ignores_number_witness :
  retrieve_range example_root example_root_size insertion_sort
                 4 "temp" 0 604801 1 example_dir
  = retrieve_range example_root example_root_size insertion_sort
                   4 "temp" 0 604801 (-1) example_dir
  /\ exists l,
       retrieve_range example_root example_root_size insertion_sort
                      4 "temp" 0 604801 1 example_dir = Ok l
       /\ List.length l
          = List.length
              (filter (in_interval 0 604801)
                 (stored example_root example_root_size "temp" example_dir)).
Proof.
  split.
  - apply (proj1 (retrieve_range_ignores_number example_root example_root_size
                    insertion_sort insertion_sort_perm insertion_sort_sorted
                    4 "temp" 0 604801 example_dir)).
  - apply (proj2 (retrieve_range_ignores_number example_root example_root_size
                    insertion_sort insertion_sort_perm insertion_sort_sorted
                    4 "temp" 0 604801 example_dir)).
    + reflexivity.
    + lia.
    + lia.
    + vm_compute; reflexivity.
    + vm_compute; reflexivity.
    + vm_compute; discriminate.
Defined.

(** Three records for a limit of one. *)
Example three_records_for_limit_one :
  retrieve_range example_root example_root_size insertion_sort
                 4 "temp" 0 604801 1 example_dir
  = Ok [mkDatum 1 float_1_0; mkDatum 3 float_2_0; mkDatum 604800 float_2_0].
Proof. vm_compute; reflexivity. Qed.





(** ** The scenarios of the specification *)

(** Two samples of [temp] on either side of the first week boundary. *)
Example scenario_week_boundary :
  exists d1 d2,
    store example_root example_root_size "temp" 0 float_1_0 [] = Ok d1
    /\ store example_root example_root_size "temp" 604800 float_2_0 d1 = Ok d2
    /\ retrieve_range example_root example_root_size insertion_sort
                      4 "temp" 0 604801 10 d2
       = Ok [mkDatum 0 float_1_0; mkDatum 604800 float_2_0]
    /\ retrieve_range example_root example_root_size insertion_sort
                      4 "temp" 1 604800 10 d2
       = Ok [].
Proof. do 2 eexists. repeat split; vm_compute; reflexivity. Qed.

(** [cpu] written in two weeks and [mem] in one. *)
Example scenario_getMetrics :
  exists d1 d2 d3,
    store example_root example_root_size "cpu" 5 float_1_0 [] = Ok d1
    /\ store example_root example_root_size "cpu" 604805 float_1_0 d1 = Ok d2
    /\ store example_root example_root_size "mem" 5 float_2_0 d2 = Ok d3
    /\ getMetrics d3 = ["cpu"; "mem"].
Proof. do 3 eexists. repeat split; vm_compute; reflexivity. Qed.

(** The directories [.] and [..] are entries of the listing too.  The names
    [.] and [..] pass the validation and select them, and reading a
    directory is fatal: this is what the condition [shards_regular] of the
    round trips keeps out. *)
Example retrieve_dot_reads_directory :
  valid_name "." = true
  /\ shards_regular example_root example_root_size "." example_dir = false
  /\ retrieve example_root example_root_size "." example_dir
     = Err (UnixDie "Reading from '/var/lib/metronome/.'").
Proof. repeat split; vm_compute; reflexivity. Qed.

(** A name with a NUL inside is outside the character class, yet [regexec]
    and [fopen] read it as a C string: the single [store] accepts [ok\0 x]
    as [ok] and appends to the entry [ok]. *)
Example store_reads_name_as_C_string :
  valid_name (String "o" (String "k" (String NUL " x"))) = false
  /\ store example_root example_root_size
           (String "o" (String "k" (String NUL " x"))) 604800 float_1_0 []
     = Ok [("ok", File (encode_Val (mkVal 604800 float_1_0)))].
Proof. split; vm_compute; reflexivity. Qed.

(** ** The further properties on the example data *)



Lemma retrieve_slash_empty_witness :
  retrieve example_root example_root_size "../etc/passwd" example_dir = Ok [].
Proof.
  apply (retrieve_slash_empty example_root example_root_size
           "../etc/passwd" example_dir).
  - reflexivity.
  - repeat constructor.
Defined.

Lemma store_appends_one_record_witness :
  exists d',
    store example_root example_root_size "temp" 604801 float_1_0 example_dir
    = Ok d'
    /\ (forall k,
          file_content k d'
          = file_content k example_dir
            ++ (if String.eqb (shard_entry "temp" 604801) k
                then encode_Val (mkVal 604801 float_1_0) else []))
    /\ (forall k, In k (readdir d') <->
                  k = shard_entry "temp" 604801 \/ In k (readdir example_dir)).
Proof.
  apply (store_appends_one_record example_root example_root_size
           "temp" 604801 float_1_0 example_dir); reflexivity.
Defined.

Lemma makeFilename_injective_witness :
  makeFilename example_root "cpu" 5 = makeFilename example_root "cpu" 604799
  <-> "cpu" = "cpu" /\ getWeekNum 5 = getWeekNum 604799.
Proof.
  apply (makeFilename_injective example_root "cpu" "cpu" 5 604799); lia.
Defined.

Lemma store_batch_own_week_witness :
  exists d',
    store_batch example_root example_root_size "cpu" example_batch example_dir
    = Ok d'
    /\ forall k, file_content k d'
                 = file_content k example_dir
                   ++ batch_bytes "cpu" k example_batch.
Proof.
  apply (store_batch_own_week example_root example_root_size
           "cpu" example_batch example_dir).
  - reflexivity.
  - reflexivity.
  - vm_compute; discriminate.
  - intros dt [<-|[<-|[<-|[<-|[]]]]]; reflexivity.
Defined.

Lemma store_batch_as_single_stores_witness :
  store_batch example_root example_root_size "cpu" example_batch example_dir
  = store_each example_root example_root_size "cpu" example_batch example_dir.
Proof.
  apply (store_batch_as_single_stores example_root example_root_size
           "cpu" example_batch example_dir).
  - reflexivity.
  - vm_compute; discriminate.
Defined.

Lemma store_lists_metric_witness :
  In "cpu" (getMetrics [("cpu.0", File (encode_Val (mkVal 5 float_1_0)))]).
Proof.
  apply (store_lists_metric example_root example_root_size
           "cpu" 5 float_1_0 []); reflexivity.
Defined.

(** The shard of week 0 of the example root holds a sample at time 1:
    asked for the range from 2 back to 1, the range query fails. *)
Lemma retrieve_range_reversed_witness :
  retrieve_range example_root example_root_size insertion_sort
                 3 "temp" 2 1 10 example_dir
  = Err LengthError.
Proof.
  apply (proj2 (retrieve_range_reversed example_root example_root_size
                  insertion_sort insertion_sort_perm insertion_sort_sorted
                  3 "temp" 2 1 10 example_dir ltac:(lia))
           [mkVal 1 float_1_0; mkVal 3 float_2_0] (mkVal 1 float_1_0)).
  - vm_compute; reflexivity.
  - now left.
  - cbn; lia.
Defined.

Lemma retrieve_range_never_returns_witness :
  retrieve_range example_root example_root_size insertion_sort
                 100 "temp" 0 4294362495 10 example_dir
  = OutOfFuel.
Proof.
  refine (retrieve_range_never_returns example_root example_root_size
            insertion_sort "temp" 0 4294362495 10 example_dir
            _ _ _ _ _ _ 100%nat).
  - reflexivity.
  - vm_compute; reflexivity.
  - lia.
  - lia.
  - lia.
  - vm_compute; reflexivity.
Defined.

Lemma visited_consecutive_weeks_witness :
  exists ts,
    visited 6 0 1814400 = Ok ts
    /\ map getWeekNum ts = weeks_from (List.length ts) (getWeekNum 0)
    /\ (forall w, getWeekNum 0 <= w <= getWeekNum 1814400 ->
                  In w (map getWeekNum ts))
    /\ Z.of_nat (List.length ts) <= (1814400 - 0) / (7 * 86400) + 2.
Proof.
  apply (visited_consecutive_weeks 6 0 1814400).
  - lia.
  - lia.
  - vm_compute; discriminate.
Defined.


Lemma written_directory_well_formed_witness :
  (forall k e,
     dir_lookup k example_dir_one = Some e ->
     (dot_entry k = true /\ exists sz, e = Dir sz)
     \/ exists c, e = File c /\ Z.of_nat (List.length c) mod sizeof_Val = 0)
  /\ (forall name, valid_name name = true ->
        shards_openable example_root example_root_size name example_dir_one
        = true
        /\ shards_in_week example_root example_root_size name example_dir_one
           = true
        /\ (forall t,
              whole_records example_root example_root_size
                (makeFilename example_root name t) example_dir_one = true)
        /\ (dot_entry name = false ->
            shards_regular example_root example_root_size name example_dir_one
            = true)).
Proof.
  apply (written_directory_well_formed example_root example_root_size
           example_dir_one).
  apply (written_store example_root example_root_size
           "temp" 0 float_1_0 example_empty_root example_dir_one
           (written_empty _ _ example_empty_root eq_refl)).
  - reflexivity.
  - unfold uint32; lia.
  - unfold uint32, float_1_0; lia.
  - reflexivity.
Defined.

Lemma example_log_storable : Forall storable example_log.
Proof.
  repeat (apply Forall_cons;
          [unfold storable, uint32, float_1_0, float_2_0; cbn;
           repeat split; try reflexivity; lia|]).
  apply Forall_nil.
Defined.

Lemma store_log_range_query_witness :
  exists d,
    store_log example_root example_root_size example_log example_empty_root
    = Ok d
    /\ forall fuel name begin end_ number,
         valid_name name = true ->
         0 <= begin <= end_ -> end_ + 2 * (7 * 86400) <= 2 ^ 32 ->
         (end_ - begin) / (7 * 86400) + 3 <= Z.of_nat fuel ->
         exists l,
           retrieve_range example_root example_root_size insertion_sort
                          fuel name begin end_ number d = Ok l
           /\ Permutation l
                (filter (in_interval begin end_) (logged name example_log))
           /\ StronglySorted Datum_le l.
Proof.
  apply (store_log_range_query example_root example_root_size insertion_sort
           insertion_sort_perm insertion_sort_sorted example_log
           example_empty_root).
  - reflexivity.
  - exact example_log_storable.
Defined.

Lemma store_log_retrieve_witness :
  exists d,
    store_log example_root example_root_size example_log example_empty_root
    = Ok d
    /\ forall name, valid_name name = true -> dot_entry name = false ->
         exists l, retrieve example_root example_root_size name d = Ok l
                   /\ forall x, In x (logged name example_log) -> In x l.
Proof.
  apply (store_log_retrieve example_root example_root_size example_log
           example_empty_root).
  - reflexivity.
  - exact example_log_storable.
Defined.


Lemma retrieve_dies_on_directory_witness :
  exists what,
    retrieve example_root example_root_size ".." example_dir
    = Err (UnixDie what).
Proof.
  apply (retrieve_dies_on_directory example_root example_root_size
           ".." ".." 4096 example_dir).
  - reflexivity.
  - discriminate.
  - reflexivity.
  - reflexivity.
  - unfold sizeof_Val; lia.
Defined.
